(** * WarCardGame: the deck and the round/war engine

    A shallow embedding of [Card.py], [Deck.py] and the engine of [Game.py],
    with the properties of the specification proved (or refuted) on it.

    Python lists are Rocq lists in the same order: index 0 is the head,
    [list.pop()] removes the LAST element, [list.insert(0, x)] conses.
    Exceptions are explicit: a method either returns or raises, and in both
    cases the mutated object is kept. *)

From Stdlib Require Import ZArith String.
From stdpp Require Import base decidable list sets strings.

Local Open Scope string_scope.
Local Open Scope Z_scope.

(* ===================================================================== *)
(** * Card.py *)
(* ===================================================================== *)

(** The image an [ImageCollection] currently shows. *)
Inductive Face : Set := back | front.

(** [Card.__init__]: [rank], [suit] and [value] never change after
    construction; the displayed image is the only mutable part and lives in
    the [Images] store below, so that every list holding the card sees the
    same face. *)
Record Card : Set := mkCard {
  rank : string;
  suit : string;
  value : Z
}.

#[global] Instance Card_eq_dec : EqDecision Card.
Proof. solve_decision. Defined.

Definition cardName (c : Card) : string := rank c ++ " of " ++ suit c.

(** [Card.getValue]. *)
Definition getValue (c : Card) : Z := value c.

(** The faces of the card objects: which image each one shows. *)
Definition Images : Type := Card -> Face.

(** A freshly built [ImageCollection] starts on ['back']. *)
Definition newImages : Images := fun _ => back.

Definition replace (c : Card) (f : Face) (im : Images) : Images :=
  fun c' => if decide (c' = c) then f else im c'.

(** [Card.conceal] and [Card.reveal]. *)
Definition conceal (c : Card) (im : Images) : Images := replace c back im.
Definition reveal (c : Card) (im : Images) : Images := replace c front im.

(* ===================================================================== *)
(** * The [random] module *)
(* ===================================================================== *)

(** The generator is an explicit stream of raw draws; an exhausted stream
    keeps answering 0. *)
Definition Rng : Type := list nat.

Definition randbelow (n : nat) (g : Rng) : nat * Rng :=
  (Nat.modulo (hd 0%nat g) n, tl g).

(** [x[i], x[j] = x[j], x[i]]. *)
Definition swap {A} (x : list A) (i j : nat) : list A :=
  match x !! i, x !! j with
  | Some a, Some b => <[j:=a]> (<[i:=b]> x)
  | _, _ => x
  end.

(** [random.shuffle(x)]:
    [for i in reversed(range(1, len(x))): j = randbelow(i + 1); swap]. *)
Fixpoint shuffle_from {A} (i : nat) (x : list A) (g : Rng) : list A * Rng :=
  match i with
  | O => (x, g)
  | S i' =>
      let '(j, g') := randbelow (S i) g in
      shuffle_from i' (swap x i j) g'
  end.

Definition random_shuffle {A} (x : list A) (g : Rng) : list A * Rng :=
  shuffle_from (length x - 1) x g.

(* ===================================================================== *)
(** * Deck.py *)
(* ===================================================================== *)

Definition SUIT_TUPLE : list string :=
  ["Hearts"; "Spades"; "Diamonds"; "Clubs"].

(** A [dict] iterated with [items()]: its (key, value) pairs in insertion
    order. *)
Definition STANDARD_DICT : list (string * Z) :=
  [("9", 9); ("10", 10); ("Jack", 11); ("Queen", 12); ("King", 13);
   ("Ace", 14)].

Record Deck : Type := mkDeck {
  startingDeckList : list Card;
  playingDeckList : list Card;
  images : Images
}.

Inductive Exn : Set :=
| IndexError (msg : string)
| AttributeError (msg : string).

(** [Deck.shuffle]. *)
Definition shuffle (d : Deck) (g : Rng) : Deck * Rng :=
  let copy := startingDeckList d in
  let im := foldl (fun im oCard => conceal oCard im) (images d) copy in
  let '(shuffled, g') := random_shuffle copy g in
  (mkDeck (startingDeckList d) shuffled im, g').

(** The two nested loops of [Deck.__init__]. *)
Definition buildCards (rankValueDict : list (string * Z)) : list Card :=
  flat_map (fun suit => map (fun rv => mkCard (fst rv) suit (snd rv)) rankValueDict)
           SUIT_TUPLE.

(** [Deck.__init__]. *)
Definition Deck_init (rankValueDict : list (string * Z)) (g : Rng) : Deck * Rng :=
  shuffle (mkDeck (buildCards rankValueDict) [] newImages) g.

(** [list.pop()]: the last element and the list without it. *)
Definition pop {A} (l : list A) : option (A * list A) :=
  match last l with
  | Some x => Some (x, removelast l)
  | None => None
  end.

(** [Deck.getCard]. *)
Definition getCard (d : Deck) : Exn + (Card * Deck) :=
  if (length (playingDeckList d) =? 0)%nat then inl (IndexError "Brak kolejnych kart.")
  else match pop (playingDeckList d) with
       | Some (oCard, rest) => inr (oCard, mkDeck (startingDeckList d) rest (images d))
       | None => inl (IndexError "pop from empty list")
       end.

(* ===================================================================== *)
(** * Game.py: the engine state *)
(* ===================================================================== *)

(** The attributes of [Game] that the engine reads or writes.  The
    presentation attributes ([displayedCardList], [specialDisplayList], the
    hand cards, the wrap flags, card locations and faces during play, and the
    texts that only print a counter) are written but never read by the
    engine's control flow and are left out; [messageText], [gameOverText] and
    [winnerText] of [oText] are kept, they carry the outcome. *)
Record Game : Type := mkGame {
  oDeck : Deck;
  roundNumber : nat;
  cardsSet : bool;
  playerScore : nat;
  npcScore : nat;
  warNumber : nat;
  warMode : bool;
  anotherWar : bool;
  stack : list Card;
  stackCardsToShow : bool;
  playerCardList : list Card;
  npcCardList : list Card;
  playerLaidCard : option Card;
  npcLaidCard : option Card;
  messageText : string;
  gameOverText : string;
  winnerText : string
}.

Definition MAX_ROUND_NUMBER : nat := 100.

(** Attribute assignment [self.x = v]. *)
Definition set_oDeck v (s : Game) : Game :=
  mkGame v (roundNumber s) (cardsSet s) (playerScore s) (npcScore s) (warNumber s) (warMode s) (anotherWar s) (stack s) (stackCardsToShow s) (playerCardList s) (npcCardList s) (playerLaidCard s) (npcLaidCard s) (messageText s) (gameOverText s) (winnerText s).
Definition set_roundNumber v (s : Game) : Game :=
  mkGame (oDeck s) v (cardsSet s) (playerScore s) (npcScore s) (warNumber s) (warMode s) (anotherWar s) (stack s) (stackCardsToShow s) (playerCardList s) (npcCardList s) (playerLaidCard s) (npcLaidCard s) (messageText s) (gameOverText s) (winnerText s).
Definition set_cardsSet v (s : Game) : Game :=
  mkGame (oDeck s) (roundNumber s) v (playerScore s) (npcScore s) (warNumber s) (warMode s) (anotherWar s) (stack s) (stackCardsToShow s) (playerCardList s) (npcCardList s) (playerLaidCard s) (npcLaidCard s) (messageText s) (gameOverText s) (winnerText s).
Definition set_playerScore v (s : Game) : Game :=
  mkGame (oDeck s) (roundNumber s) (cardsSet s) v (npcScore s) (warNumber s) (warMode s) (anotherWar s) (stack s) (stackCardsToShow s) (playerCardList s) (npcCardList s) (playerLaidCard s) (npcLaidCard s) (messageText s) (gameOverText s) (winnerText s).
Definition set_npcScore v (s : Game) : Game :=
  mkGame (oDeck s) (roundNumber s) (cardsSet s) (playerScore s) v (warNumber s) (warMode s) (anotherWar s) (stack s) (stackCardsToShow s) (playerCardList s) (npcCardList s) (playerLaidCard s) (npcLaidCard s) (messageText s) (gameOverText s) (winnerText s).
Definition set_warNumber v (s : Game) : Game :=
  mkGame (oDeck s) (roundNumber s) (cardsSet s) (playerScore s) (npcScore s) v (warMode s) (anotherWar s) (stack s) (stackCardsToShow s) (playerCardList s) (npcCardList s) (playerLaidCard s) (npcLaidCard s) (messageText s) (gameOverText s) (winnerText s).
Definition set_warMode v (s : Game) : Game :=
  mkGame (oDeck s) (roundNumber s) (cardsSet s) (playerScore s) (npcScore s) (warNumber s) v (anotherWar s) (stack s) (stackCardsToShow s) (playerCardList s) (npcCardList s) (playerLaidCard s) (npcLaidCard s) (messageText s) (gameOverText s) (winnerText s).
Definition set_anotherWar v (s : Game) : Game :=
  mkGame (oDeck s) (roundNumber s) (cardsSet s) (playerScore s) (npcScore s) (warNumber s) (warMode s) v (stack s) (stackCardsToShow s) (playerCardList s) (npcCardList s) (playerLaidCard s) (npcLaidCard s) (messageText s) (gameOverText s) (winnerText s).
Definition set_stack v (s : Game) : Game :=
  mkGame (oDeck s) (roundNumber s) (cardsSet s) (playerScore s) (npcScore s) (warNumber s) (warMode s) (anotherWar s) v (stackCardsToShow s) (playerCardList s) (npcCardList s) (playerLaidCard s) (npcLaidCard s) (messageText s) (gameOverText s) (winnerText s).
Definition set_stackCardsToShow v (s : Game) : Game :=
  mkGame (oDeck s) (roundNumber s) (cardsSet s) (playerScore s) (npcScore s) (warNumber s) (warMode s) (anotherWar s) (stack s) v (playerCardList s) (npcCardList s) (playerLaidCard s) (npcLaidCard s) (messageText s) (gameOverText s) (winnerText s).
Definition set_playerCardList v (s : Game) : Game :=
  mkGame (oDeck s) (roundNumber s) (cardsSet s) (playerScore s) (npcScore s) (warNumber s) (warMode s) (anotherWar s) (stack s) (stackCardsToShow s) v (npcCardList s) (playerLaidCard s) (npcLaidCard s) (messageText s) (gameOverText s) (winnerText s).
Definition set_npcCardList v (s : Game) : Game :=
  mkGame (oDeck s) (roundNumber s) (cardsSet s) (playerScore s) (npcScore s) (warNumber s) (warMode s) (anotherWar s) (stack s) (stackCardsToShow s) (playerCardList s) v (playerLaidCard s) (npcLaidCard s) (messageText s) (gameOverText s) (winnerText s).
Definition set_playerLaidCard v (s : Game) : Game :=
  mkGame (oDeck s) (roundNumber s) (cardsSet s) (playerScore s) (npcScore s) (warNumber s) (warMode s) (anotherWar s) (stack s) (stackCardsToShow s) (playerCardList s) (npcCardList s) v (npcLaidCard s) (messageText s) (gameOverText s) (winnerText s).
Definition set_npcLaidCard v (s : Game) : Game :=
  mkGame (oDeck s) (roundNumber s) (cardsSet s) (playerScore s) (npcScore s) (warNumber s) (warMode s) (anotherWar s) (stack s) (stackCardsToShow s) (playerCardList s) (npcCardList s) (playerLaidCard s) v (messageText s) (gameOverText s) (winnerText s).
Definition set_messageText v (s : Game) : Game :=
  mkGame (oDeck s) (roundNumber s) (cardsSet s) (playerScore s) (npcScore s) (warNumber s) (warMode s) (anotherWar s) (stack s) (stackCardsToShow s) (playerCardList s) (npcCardList s) (playerLaidCard s) (npcLaidCard s) v (gameOverText s) (winnerText s).
Definition set_gameOverText v (s : Game) : Game :=
  mkGame (oDeck s) (roundNumber s) (cardsSet s) (playerScore s) (npcScore s) (warNumber s) (warMode s) (anotherWar s) (stack s) (stackCardsToShow s) (playerCardList s) (npcCardList s) (playerLaidCard s) (npcLaidCard s) (messageText s) v (winnerText s).
Definition set_winnerText v (s : Game) : Game :=
  mkGame (oDeck s) (roundNumber s) (cardsSet s) (playerScore s) (npcScore s) (warNumber s) (warMode s) (anotherWar s) (stack s) (stackCardsToShow s) (playerCardList s) (npcCardList s) (playerLaidCard s) (npcLaidCard s) (messageText s) (gameOverText s) v.

(* ===================================================================== *)
(** * Methods as state transformers that may raise *)
(* ===================================================================== *)

(** What a method call leaves behind: a returned value or a raised exception,
    and in both cases the object as mutated so far. *)
Inductive Outcome (A : Type) : Type :=
| Returned (a : A) (s : Game)
| Raised (e : Exn) (s : Game).
Arguments Returned {A} a s.
Arguments Raised {A} e s.

Definition M (A : Type) : Type := Game -> Outcome A.

Definition ret {A} (a : A) : M A := fun s => Returned a s.

Definition bind {A B} (m : M A) (k : A -> M B) : M B :=
  fun s => match m s with
           | Returned a s' => k a s'
           | Raised e s' => Raised e s'
           end.

Definition raise {A} (e : Exn) : M A := fun s => Raised e s.
Definition gets {A} (f : Game -> A) : M A := fun s => Returned (f s) s.
Definition modify (f : Game -> Game) : M unit := fun s => Returned tt (f s).

Declare Scope game_scope.
Delimit Scope game_scope with game.
Notation "x <- m ;; k" := (bind m (fun x => k))
  (at level 20, m at level 99, k at level 200, only parsing) : game_scope.
Notation "m ;; k" := (bind m (fun _ => k))
  (at level 100, k at level 200, only parsing, right associativity) : game_scope.
Local Open Scope game_scope.

(** The state a call ends in, whether it returned or raised. *)
Definition finalState {A} (o : Outcome A) : Game :=
  match o with Returned _ s => s | Raised _ s => s end.

(* ===================================================================== *)
(** * Game.py: the methods of the engine *)
(* ===================================================================== *)

(** [self.playerCardList.pop()] and [self.npcCardList.pop()]. *)
Definition popPlayer : M Card :=
  fun s => match pop (playerCardList s) with
           | Some (oCard, rest) => Returned oCard (set_playerCardList rest s)
           | None => Raised (IndexError "pop from empty list") s
           end.

Definition popNpc : M Card :=
  fun s => match pop (npcCardList s) with
           | Some (oCard, rest) => Returned oCard (set_npcCardList rest s)
           | None => Raised (IndexError "pop from empty list") s
           end.

(** Reading an attribute that [__init__] does not create. *)
Definition getattr (f : Game -> option Card) (name : string) : M Card :=
  fun s => match f s with
           | Some oCard => Returned oCard s
           | None => Raised (AttributeError name) s
           end.

(** [Game.returnCard]: [competitorList.insert(0, oCard)]. *)
Definition returnCard (competitorList : list Card) (oCard : Card) : list Card :=
  oCard :: competitorList.

(** [Game.setScores]. *)
Definition setScores : M unit :=
  modify (fun s => set_playerScore (length (playerCardList s)) s) ;;
  modify (fun s => set_npcScore (length (npcCardList s)) s).

(** [Game.checkGameOver]. *)
Definition checkGameOver (playerCardList npcCardList : list Card)
    (roundNumber : nat) : M bool :=
  let condition1 := (length npcCardList =? 0)%nat in
  let condition2 := (length playerCardList =? 0)%nat in
  let condition3 := (roundNumber =? MAX_ROUND_NUMBER)%nat in
  if condition1 then
    modify (set_gameOverText "Koniec gry!") ;;
    modify (set_winnerText "Gracz wygrywa grę!") ;;
    ret true
  else if condition2 then
    modify (set_gameOverText "Koniec gry!") ;;
    modify (set_winnerText "NPC wygrywa grę!") ;;
    ret true
  else if condition3 then
    modify (set_gameOverText "Koniec gry!") ;;
    modify (set_messageText "Osiągnięto maksymalną liczbę rund") ;;
    if (length npcCardList <? length playerCardList)%nat then
      modify (set_winnerText "Gracz wygrywa grę!") ;;
      ret true
    else if (length playerCardList <? length npcCardList)%nat then
      modify (set_winnerText "NPC wygrywa grę!") ;;
      ret true
    else
      modify (set_winnerText "Remis!") ;;
      ret true
  else
    ret false.

(** [self.checkGameOver(self.playerCardList, self.npcCardList, self.roundNumber)]. *)
Definition checkGameOverSelf : M bool :=
  fun s => checkGameOver (playerCardList s) (npcCardList s) (roundNumber s) s.

(** [Game.warChecking]. *)
Definition warChecking : M bool :=
  p <- gets playerCardList ;;
  if (length p <? 2)%nat then
    modify (set_messageText "Gracz ma zbyt mało kart by rozegrać wojnę!") ;;
    modify (fun s => set_npcCardList (npcCardList s ++ stack s ++ playerCardList s) s) ;;
    modify (set_playerCardList []) ;;
    ret true
  else
    n <- gets npcCardList ;;
    if (length n <? 2)%nat then
      modify (set_messageText "NPC ma zbyt mało kart by rozegrać wojnę!") ;;
      modify (fun s => set_playerCardList (playerCardList s ++ stack s ++ npcCardList s) s) ;;
      modify (set_npcCardList []) ;;
      ret true
    else ret false.

(** [Game.gamePlay]. *)
Definition gamePlay : M bool :=
  modify (fun s => set_roundNumber (roundNumber s + 1)%nat s) ;;
  playerLaid <- popPlayer ;;
  modify (set_playerLaidCard (Some playerLaid)) ;;
  npcLaid <- popNpc ;;
  modify (set_npcLaidCard (Some npcLaid)) ;;
  (if getValue playerLaid >? getValue npcLaid then
     modify (fun s => set_playerCardList (returnCard (playerCardList s) playerLaid) s) ;;
     modify (fun s => set_playerCardList (returnCard (playerCardList s) npcLaid) s) ;;
     modify (set_messageText "Gracz wygrywa rundę")
   else if getValue playerLaid <? getValue npcLaid then
     modify (fun s => set_npcCardList (returnCard (npcCardList s) npcLaid) s) ;;
     modify (fun s => set_npcCardList (returnCard (npcCardList s) playerLaid) s) ;;
     modify (set_messageText "NPC wygrywa rundę")
   else
     modify (set_warMode true) ;;
     modify (set_messageText "       WOJNA!")) ;;
  setScores ;;
  inWar <- gets warMode ;;
  (if inWar then (warChecking ;; ret tt) else ret tt) ;;
  checkGameOverSelf.

(** The part of [Game.war] after the [if not self.anotherWar] block. *)
Definition warRound : M bool :=
  modify (fun s => set_warNumber (warNumber s + 1)%nat s) ;;
  playerStake <- popPlayer ;;
  npcStake <- popNpc ;;
  playerNewLaid <- popPlayer ;;
  npcNewLaid <- popNpc ;;
  modify (fun s => set_stack
            (stack s ++ [playerStake; npcStake; playerNewLaid; npcNewLaid]) s) ;;
  if getValue playerNewLaid >? getValue npcNewLaid then
    modify (set_messageText "Gracz wygrywa wojnę!") ;;
    modify (fun s => set_playerCardList (stack s ++ playerCardList s) s) ;;
    modify (set_stackCardsToShow true) ;;
    modify (set_warMode false) ;;
    modify (set_anotherWar false) ;;
    setScores ;;
    ret false
  else if getValue playerNewLaid <? getValue npcNewLaid then
    modify (set_messageText "NPC wygrywa wojnę!") ;;
    modify (fun s => set_npcCardList (stack s ++ npcCardList s) s) ;;
    modify (set_stackCardsToShow true) ;;
    modify (set_warMode false) ;;
    modify (set_anotherWar false) ;;
    setScores ;;
    ret false
  else
    modify (set_messageText "ZNOWU WOJNA!") ;;
    modify (set_anotherWar true) ;;
    setScores ;;
    ret false.

(** [Game.war]. *)
Definition war : M bool :=
  chained <- gets anotherWar ;;
  if negb chained then
    playerLaid <- getattr playerLaidCard "playerLaidCard" ;;
    npcLaid <- getattr npcLaidCard "npcLaidCard" ;;
    modify (fun s => set_stack (stack s ++ [playerLaid]) s) ;;
    modify (fun s => set_stack (stack s ++ [npcLaid]) s) ;;
    warRound
  else
    insufficient <- warChecking ;;
    if insufficient then checkGameOverSelf else warRound.

(** [Game.showStackCards]. *)
Definition showStackCards : M bool :=
  modify (set_stackCardsToShow false) ;;
  modify (set_stack []) ;;
  checkGameOverSelf.

(** [Game.firstView]: reads [playerCardList[-1]] and [npcCardList[-1]], then
    the [else] of its loop sets [cardsSet]. *)
Definition firstView : M unit :=
  p <- gets playerCardList ;;
  match last p with
  | None => raise (IndexError "list index out of range")
  | Some _ =>
      n <- gets npcCardList ;;
      match last n with
      | None => raise (IndexError "list index out of range")
      | Some _ => modify (set_cardsSet true)
      end
  end.

(** [Game.manageGame]; the first branch falls off the end and returns
    Python's [None]. *)
Definition manageGame : M (option bool) :=
  ready <- gets cardsSet ;;
  if negb ready then firstView ;; ret None
  else
    inWar <- gets warMode ;;
    if inWar then (b <- war ;; ret (Some b))
    else
      pending <- gets stackCardsToShow ;;
      if pending then (b <- showStackCards ;; ret (Some b))
      else (b <- gamePlay ;; ret (Some b)).

(** [self.oDeck.getCard()]. *)
Definition deckGetCard : M Card :=
  fun s => match getCard (oDeck s) with
           | inr (oCard, d) => Returned oCard (set_oDeck d s)
           | inl e => Raised e s
           end.

(** [for i in range(n): body(i)], written over the list of indices. *)
Fixpoint forRange (indices : list nat) (body : nat -> M unit) : M unit :=
  match indices with
  | [] => ret tt
  | i :: rest => body i ;; forRange rest body
  end.

(** The body of the loop of [Game.dealCards]. *)
Definition dealOne (i : nat) : M unit :=
  if (i mod 2 =? 0)%nat then
    oCard <- deckGetCard ;;
    modify (fun s => set_playerCardList (playerCardList s ++ [oCard]) s)
  else
    oCard <- deckGetCard ;;
    modify (fun s => set_npcCardList (npcCardList s ++ [oCard]) s).

(** [Game.dealCards]. *)
Definition dealCards (g : Rng) : M Rng :=
  d <- gets oDeck ;;
  let '(d', g') := shuffle d g in
  modify (set_oDeck d') ;;
  modify (set_playerCardList []) ;;
  modify (set_npcCardList []) ;;
  forRange (seq 0 (length (startingDeckList d'))) dealOne ;;
  ret g'.

(** The attributes [Game.__init__] assigns before it deals. *)
Definition newGameAttributes (d : Deck) : Game :=
  let half := (length (playingDeckList d) / 2)%nat in
  mkGame d 0 false half half 0 false false [] false [] [] None None
    "Informacja o wygranej rundzie " "Info o zakończeniu gry!" "Gracz wygrywa! ".

(** [Game.__init__] on a deck that is already built: the attribute
    assignments, then [dealCards] and [manageGame]. *)
Definition Game_with_deck (d : Deck) (g : Rng) : Outcome Rng :=
  (g' <- dealCards g ;; manageGame ;; ret g') (newGameAttributes d).

(** [Game.__init__]: [Deck(self.window)] takes the default [STANDARD_DICT]. *)
Definition Game_init (g : Rng) : Outcome Rng :=
  let '(d, g1) := Deck_init STANDARD_DICT g in
  Game_with_deck d g1.

(* ===================================================================== *)
(** * Notions the properties are stated with *)
(* ===================================================================== *)

Local Open Scope list_scope.
Local Open Scope nat_scope.

(** The order in which successive [pop()] calls hand out the cards of a
    pile: last element first. *)
Definition drawOrder (pile : list Card) : list Card := reverse pile.

(** The operations a client can run on a built deck. *)
Inductive DeckOp : Type :=
| OpShuffle (g : Rng)
| OpGetCard.

(** One operation; a [getCard] that raises leaves the deck as it was. *)
Definition runDeckOp (d : Deck) (op : DeckOp) : Deck :=
  match op with
  | OpShuffle g => (shuffle d g).1
  | OpGetCard => match getCard d with
                 | inr (_, d') => d'
                 | inl _ => d
                 end
  end.

Definition runDeckOps (d : Deck) (ops : list DeckOp) : Deck :=
  foldl runDeckOp d ops.

(** The two competitors, to state what holds for either of them. *)
Inductive Side : Set := Player | Npc.

Definition other (side : Side) : Side :=
  match side with Player => Npc | Npc => Player end.

Definition pile (side : Side) (s : Game) : list Card :=
  match side with
  | Player => playerCardList s
  | Npc => npcCardList s
  end.

Definition score (side : Side) (s : Game) : nat :=
  match side with
  | Player => playerScore s
  | Npc => npcScore s
  end.

(** What [winnerText] says when [side] has won. *)
Definition winsGame (side : Side) : string :=
  match side with
  | Player => "Gracz wygrywa grę!"
  | Npc => "NPC wygrywa grę!"
  end.

(** One click on the play button: the state [manageGame] leaves behind. *)
Definition advance (s : Game) : Game := finalState (manageGame s).

(** The outcomes of the game-over evaluation, and the evaluation as the
    specification words it: the opponent's empty pile first, then the
    player's, then the round limit with the larger pile winning and equal
    piles drawing. *)
Inductive Verdict : Set :=
| PlayerWinsGame
| NpcWinsGame
| DrawnGame
| GameContinues.

Definition verdict_spec (playerPile npcPile : list Card) (round : nat) : Verdict :=
  if decide (npcPile = []) then PlayerWinsGame
  else if decide (playerPile = []) then NpcWinsGame
  else if decide (round = 100) then
    if decide (length npcPile < length playerPile) then PlayerWinsGame
    else if decide (length playerPile < length npcPile) then NpcWinsGame
    else DrawnGame
  else GameContinues.

(** What the engine shows in [winnerText] for a verdict ([None]: nothing is
    announced). *)
Definition announced (v : Verdict) : option string :=
  match v with
  | PlayerWinsGame => Some (winsGame Player)
  | NpcWinsGame => Some (winsGame Npc)
  | DrawnGame => Some "Remis!"
  | GameContinues => None
  end.

(** [s'] is [s] up to the three texts. *)
Definition sameButTexts (s s' : Game) : Prop :=
  s' = set_winnerText (winnerText s')
         (set_gameOverText (gameOverText s')
            (set_messageText (messageText s') s)).

Definition gameIsOver (v : Verdict) : bool :=
  match v with GameContinues => false | _ => true end.

(** The 24 cards of the game's deck, in the order they are built. *)
Definition standardDeck : list Card := buildCards STANDARD_DICT.

Definition deckSize (s : Game) : nat := length (startingDeckList (oDeck s)).

(** The states the main loop goes through: it builds the game, then calls
    [manageGame] once per click for as long as the previous call did not
    return [True] (it disables the play button when one does). *)
Inductive running : Game -> Prop :=
| running_init g g' s :
    Game_init g = Returned g' s -> running s
| running_step s r s' :
    running s -> manageGame s = Returned r s' -> r <> Some true -> running s'.

(** A state in which the game is over: some advance of a running game
    returned [True] and left it. *)
Definition gameOverState (s : Game) : Prop :=
  exists s0, running s0 /\ manageGame s0 = Returned (Some true) s.

(** Every state the main loop can observe. *)
Definition reachable (s : Game) : Prop := running s \/ gameOverState s.

(** The laid cards the engine is holding. *)
Definition laidCards (s : Game) : list Card :=
  option_list (playerLaidCard s) ++ option_list (npcLaidCard s).

(** Cards in flight: laid cards that are in neither pile nor in the stack. *)
Definition cardsInFlight (s : Game) : list Card :=
  filter (fun c => c ∉ playerCardList s ++ npcCardList s ++ stack s) (laidCards s).

(** The cards of the stack that no pile holds (yet). *)
Definition stackNotAwarded (s : Game) : list Card :=
  filter (fun c => c ∉ playerCardList s ++ npcCardList s) (stack s).

(** ** The phases of a running game

    What holds of the piles, the stack and the laid cards in each phase the
    flags select; [standardDeck] is where every card comes from. *)

Definition laidWithin (cards : list Card) (s : Game) : Prop :=
  forall c, c ∈ laidCards s -> c ∈ cards.

(** NORMAL: the next advance plays a round. *)
Record normalPhase (s : Game) : Prop := {
  normal_warMode : warMode s = false;
  normal_anotherWar : anotherWar s = false;
  normal_pending : stackCardsToShow s = false;
  normal_stack : stack s = [];
  normal_piles : playerCardList s ++ npcCardList s ≡ₚ standardDeck;
  normal_laid : laidWithin standardDeck s
}.

(** WAR after a tied round: the two tied cards are held as laid cards, not
    yet on the stack. *)
Record tiePhase (s : Game) : Prop := {
  tie_warMode : warMode s = true;
  tie_anotherWar : anotherWar s = false;
  tie_pending : stackCardsToShow s = false;
  tie_stack : stack s = [];
  tie_cards : exists pc nc,
    playerLaidCard s = Some pc /\ npcLaidCard s = Some nc /\
    pc :: nc :: playerCardList s ++ npcCardList s ≡ₚ standardDeck
}.

(** WAR_CHAIN: the last war round tied again. *)
Record chainPhase (s : Game) : Prop := {
  chain_warMode : warMode s = true;
  chain_anotherWar : anotherWar s = true;
  chain_pending : stackCardsToShow s = false;
  chain_cards : playerCardList s ++ npcCardList s ++ stack s ≡ₚ standardDeck;
  chain_stack : stack s <> [];
  chain_laid : laidWithin (stack s) s
}.

(** REVEAL_STACK: a war was decided, the winner's pile already holds the
    stack, and the stack is kept until it has been shown. *)
Record revealPhase (s : Game) : Prop := {
  reveal_warMode : warMode s = false;
  reveal_anotherWar : anotherWar s = false;
  reveal_pending : stackCardsToShow s = true;
  reveal_piles : playerCardList s ++ npcCardList s ≡ₚ standardDeck;
  reveal_stack : forall c, c ∈ stack s -> c ∈ standardDeck;
  reveal_laid : laidWithin standardDeck s
}.

Record runningInv (s : Game) : Prop := {
  inv_cardsSet : cardsSet s = true;
  inv_deck : startingDeckList (oDeck s) = standardDeck;
  inv_phase :
    (normalPhase s /\ playerCardList s <> [] /\ npcCardList s <> []) \/
    (tiePhase s /\ 2 <= length (playerCardList s) /\ 2 <= length (npcCardList s)) \/
    chainPhase s \/
    revealPhase s
}.

(** Where the cards are, in any state the main loop can observe: all in the
    piles; or all but the two tied cards; or shared by piles and stack. *)
Record conserved (s : Game) : Prop := {
  cons_cardsSet : cardsSet s = true;
  cons_deck : startingDeckList (oDeck s) = standardDeck;
  cons_cards :
    (playerCardList s ++ npcCardList s ≡ₚ standardDeck /\
     (forall c, c ∈ stack s -> c ∈ standardDeck) /\ laidWithin standardDeck s) \/
    (stack s = [] /\ exists pc nc,
       playerLaidCard s = Some pc /\ npcLaidCard s = Some nc /\
       pc :: nc :: playerCardList s ++ npcCardList s ≡ₚ standardDeck) \/
    (playerCardList s ++ npcCardList s ++ stack s ≡ₚ standardDeck /\
     laidWithin (stack s) s)
}.

(** A method result as [manageGame] passes it on. *)
Definition reported (o : Outcome bool) : Outcome (option bool) :=
  match o with
  | Returned b s => Returned (Some b) s
  | Raised e s => Raised e s
  end.

(** The state a war round leaves, by the comparison of the new laid cards. *)
Definition afterWarRound (s : Game) (p n : list Card) (ps pn ns nn : Card) : Game :=
  let s1 :=
    set_stack (stack s ++ [ps; ns; pn; nn])
      (set_npcCardList n
         (set_playerCardList p (set_warNumber (warNumber s + 1) s))) in
  if (getValue pn >? getValue nn)%Z then
    set_npcScore (length n)
      (set_playerScore (length (stack s1 ++ p))
         (set_anotherWar false
            (set_warMode false
               (set_stackCardsToShow true
                  (set_playerCardList (stack s1 ++ p)
                     (set_messageText "Gracz wygrywa wojnę!" s1))))))
  else if (getValue pn <? getValue nn)%Z then
    set_npcScore (length (stack s1 ++ n))
      (set_playerScore (length p)
         (set_anotherWar false
            (set_warMode false
               (set_stackCardsToShow true
                  (set_npcCardList (stack s1 ++ n)
                     (set_messageText "NPC wygrywa wojnę!" s1))))))
  else
    set_npcScore (length n)
      (set_playerScore (length p)
         (set_anotherWar true (set_messageText "ZNOWU WOJNA!" s1))).

(** The state a round with a higher card leaves before the game-over check
    at the end of [gamePlay]. *)
Definition afterRound (s : Game) (p n : list Card) (pc nc : Card) : Game :=
  let s1 :=
    set_npcLaidCard (Some nc)
      (set_npcCardList n
         (set_playerLaidCard (Some pc)
            (set_playerCardList p (set_roundNumber (roundNumber s + 1) s)))) in
  if (getValue pc >? getValue nc)%Z then
    set_npcScore (length n)
      (set_playerScore (length (nc :: pc :: p))
         (set_messageText "Gracz wygrywa rundę"
            (set_playerCardList (nc :: pc :: p) s1)))
  else
    set_npcScore (length (pc :: nc :: n))
      (set_playerScore (length p)
         (set_messageText "NPC wygrywa rundę"
            (set_npcCardList (pc :: nc :: n) s1))).

(** The state a tied round leaves before [warChecking]. *)
Definition afterTie (s : Game) (p n : list Card) (pc nc : Card) : Game :=
  set_npcScore (length n)
    (set_playerScore (length p)
       (set_messageText "       WOJNA!"
          (set_warMode true
             (set_npcLaidCard (Some nc)
                (set_npcCardList n
                   (set_playerLaidCard (Some pc)
                      (set_playerCardList p
                         (set_roundNumber (roundNumber s + 1) s)))))))).

(** The state [warChecking] leaves when [side] cannot go to war. *)
Definition afterForfeit (side : Side) (s : Game) : Game :=
  match side with
  | Player =>
      set_playerCardList []
        (set_npcCardList (npcCardList s ++ stack s ++ playerCardList s)
           (set_messageText "Gracz ma zbyt mało kart by rozegrać wojnę!" s))
  | Npc =>
      set_npcCardList []
        (set_playerCardList (playerCardList s ++ stack s ++ npcCardList s)
           (set_messageText "NPC ma zbyt mało kart by rozegrać wojnę!" s))
  end.

(** The state with other texts. *)
Definition withTexts (m g w : string) (s : Game) : Game :=
  set_winnerText w (set_gameOverText g (set_messageText m s)).

(** The game-over evaluation of the state's own piles and round says the
    game is over. *)
Definition over (s : Game) : Prop :=
  gameIsOver (verdict_spec (playerCardList s) (npcCardList s) (roundNumber s)) = true.

(** ** Concrete games

    Generators that make [dealCards] deal a chosen order: the first 23
    draws are used up by the shuffle in [Deck.__init__], the next 23 steer the
    shuffle in [dealCards]. *)

(** Deals so that the first round ties on two nines and the war that
    follows is won by the player's Jack against a ten. *)
Definition rngWar : Rng :=
  replicate 23 0 ++
  [23; 22; 21; 20; 19; 17; 16; 15; 14; 13; 11; 10; 9; 8; 7; 5; 4; 3; 2; 1; 1; 2; 1].

(** Deals so that every pair of cards laid against each other ties. *)
Definition rngChain : Rng :=
  replicate 23 0 ++
  [23; 17; 11; 5; 17; 16; 10; 4; 11; 11; 9; 3; 5; 5; 8; 2; 5; 2; 5; 1; 1; 1; 1].

(** The game after [__init__] and [k] clicks. *)
Definition gameAfter (g : Rng) (k : nat) : Game :=
  Nat.iter k advance (finalState (Game_init g)).

(** Deals so that the player loses ten rounds and then, holding two cards,
    ties the eleventh. *)
Definition rngForfeit : Rng :=
  replicate 23 0 ++
  [17; 17; 14; 20; 8; 11; 2; 5; 8; 2; 13; 5; 7; 10; 1; 4; 7; 2; 5; 4; 2; 1; 0].

(** The cards [side] is left with, of the two piles [p] and [n]. *)
Definition ofSide {A} (side : Side) (p n : A) : A :=
  match side with Player => p | Npc => n end.


(** ** The claims the code does not keep, as they are stated *)

(** Where [c] comes up when the pile is drawn ([None]: not in the pile). *)
Definition drawPosition (pile : list Card) (c : Card) : option nat :=
  fst <$> list_find (fun x => x = c) (drawOrder pile).

Definition drawnBefore (pile : list Card) (a b : Card) : Prop :=
  match drawPosition pile a, drawPosition pile b with
  | Some i, Some j => i < j
  | _, _ => False
  end.

(** C1 as stated: after a decided war every stack card is drawn from the
    winner's pile sooner than every card [old] that was in it already. *)
Definition stackDrawnFirst (s' : Game) (winner : Side) (old : list Card) : Prop :=
  forall a b, a ∈ stack s' -> b ∈ old -> drawnBefore (pile winner s') a b.

(** C2 as stated: after the tied round [warMode] is set, the stack holds
    exactly the two laid cards and both piles have the size they had. *)
Definition tieAsStated (s s' : Game) (pc nc : Card) : Prop :=
  warMode s' = true /\ stack s' ≡ₚ [pc; nc] /\
  length (playerCardList s') = length (playerCardList s) /\
  length (npcCardList s') = length (npcCardList s).

(** C4 as stated: the advance returns [True] again and changes no pile and
    no score. *)
Definition advanceIsNoOp (s : Game) : Prop :=
  exists s', manageGame s = Returned (Some true) s' /\
    playerCardList s' = playerCardList s /\ npcCardList s' = npcCardList s /\
    playerScore s' = playerScore s /\ npcScore s' = npcScore s.

(** Whether the first [k] clicks of the game dealt by [g] all returned
    [False]. *)
Definition clicksReturnFalse (g : Rng) (k : nat) : bool :=
  forallb (fun i => match manageGame (gameAfter g i) with
                    | Returned (Some false) _ => true
                    | _ => false
                    end) (seq 0 k).

(** ** Notions for the further properties *)

(** The two scores show the pile sizes. *)
Definition scoresShown (s : Game) : Prop :=
  playerScore s = length (playerCardList s) /\
  npcScore s = length (npcCardList s).

(** [k] successive [getCard] calls: the cards they return, in order, and
    the deck they leave; the first call that raises ends the run. *)
Fixpoint getCards (k : nat) (d : Deck) : Exn + (list Card * Deck) :=
  match k with
  | O => inr ([], d)
  | S k' =>
      match getCard d with
      | inl e => inl e
      | inr (oCard, d') =>
          match getCards k' d' with
          | inl e => inl e
          | inr (cards, d'') => inr (oCard :: cards, d'')
          end
      end
  end.

(** What is announced for the state's piles by size: the holder of the
    larger pile wins, equal piles draw. *)
Definition largerPileWins (s : Game) : string :=
  match Nat.compare (length (playerCardList s)) (length (npcCardList s)) with
  | Gt => winsGame Player
  | Lt => winsGame Npc
  | Eq => "Remis!"
  end.

(** How far a running game is from its end at most: 25 advances for every
    round still allowed, and within a round two for the war plus one for
    every card the player can still put into it, or one for the reveal. *)
Definition clicksLeft (s : Game) : nat :=
  25 * (MAX_ROUND_NUMBER - roundNumber s) +
  (if warMode s then 2 + length (playerCardList s)
   else if stackCardsToShow s then 1 else 0).

(** The game dealt by [rngWar] after its tied first round, with the
    opponent's pile cut down to its two top cards. *)
Definition lastTwoCardsWar : Game :=
  set_npcCardList [mkCard "10" "Hearts" 10; mkCard "9" "Diamonds" 9]
    (gameAfter rngWar 1).

(* ===================================================================== *)
(** * Lists as Python uses them *)
(* ===================================================================== *)

Section Pop.
Context {A : Type}.
Implicit Types (l r : list A) (x : A).

Lemma pop_nil : pop (@nil A) = None.
Proof. reflexivity. Qed.

Lemma pop_snoc l x : pop (l ++ [x]) = Some (x, l).
Proof. unfold pop. by rewrite last_snoc, removelast_last. Qed.

Lemma pop_Some l x r : pop l = Some (x, r) -> l = r ++ [x].
Proof.
    unfold pop. destruct (last l) as [y|] eqn:E; [|done].
    apply last_Some in E as [l' ->]. rewrite removelast_last.
    by intros [= -> ->].
Qed.

Lemma pop_None l : pop l = None -> l = [].
Proof.
    unfold pop. destruct (last l) eqn:E; [done|]. by apply last_None in E.
Qed.

Lemma pop_length l x r : pop l = Some (x, r) -> length l = S (length r).
Proof. intros ->%pop_Some. rewrite length_app. simpl. lia. Qed.
End Pop.

Lemma drawOrder_pop pile oCard rest :
  pop pile = Some (oCard, rest) <-> drawOrder pile = oCard :: drawOrder rest.
Proof.
  unfold drawOrder. split.
  - intros ->%pop_Some. by rewrite reverse_snoc.
  - intros E. apply (f_equal reverse) in E.
    rewrite reverse_involutive, reverse_cons, reverse_involutive in E.
    subst pile. apply pop_snoc.
Qed.

(* ===================================================================== *)
(** * The deck *)
(* ===================================================================== *)

Section Shuffle.
Context {A : Type}.
Implicit Types (x : list A) (g : Rng).

Lemma swap_Permutation x i j : swap x i j ≡ₚ x.
Proof.
    unfold swap. destruct (x !! i) as [a|] eqn:Ei; [|done].
    destruct (x !! j) as [b|] eqn:Ej; [|done].
    by apply Permutation_insert_swap.
Qed.

Lemma shuffle_from_Permutation i x g : (shuffle_from i x g).1 ≡ₚ x.
Proof.
    revert x g. induction i as [|i IH]; intros x g; simpl; [done|].
    rewrite IH. apply swap_Permutation.
Qed.

Lemma random_shuffle_Permutation x g : (random_shuffle x g).1 ≡ₚ x.
Proof. apply shuffle_from_Permutation. Qed.
End Shuffle.

Lemma conceal_all_back (cards : list Card) (im : Images) (c : Card) :
  c ∈ cards -> foldl (fun im oCard => conceal oCard im) im cards c = back.
Proof.
  revert im. induction cards as [|c0 cards IH] using rev_ind; intros im Hc.
  - by apply elem_of_nil in Hc.
  - rewrite foldl_snoc. unfold conceal at 1, replace.
    destruct (decide (c = c0)) as [|Hne]; [done|].
    apply IH. apply elem_of_app in Hc as [Hc|Hc]; [done|].
    apply list_elem_of_singleton in Hc. done.
Qed.

Lemma shuffle_master d g : startingDeckList (shuffle d g).1 = startingDeckList d.
Proof. unfold shuffle. by destruct (random_shuffle _ _). Qed.

Lemma shuffle_live d g :
  playingDeckList (shuffle d g).1 ≡ₚ startingDeckList d.
Proof.
  unfold shuffle.
  pose proof (random_shuffle_Permutation (startingDeckList d) g) as H.
  by destruct (random_shuffle _ _).
Qed.

Lemma shuffle_concealed d g c :
  c ∈ startingDeckList d -> images (shuffle d g).1 c = back.
Proof.
  unfold shuffle. destruct (random_shuffle _ _). simpl.
  apply conceal_all_back.
Qed.

Lemma getCard_master d oCard d' :
  getCard d = inr (oCard, d') -> startingDeckList d' = startingDeckList d.
Proof.
  unfold getCard. destruct (_ =? _)%nat; [done|].
  destruct (pop _) as [[c r]|]; [|done]. by intros [= _ <-].
Qed.

Lemma runDeckOp_master d op :
  startingDeckList (runDeckOp d op) = startingDeckList d.
Proof.
  destruct op as [g|]; simpl; [apply shuffle_master|].
  destruct (getCard d) as [e|[c d']] eqn:E; [done|].
  by apply getCard_master in E.
Qed.

Lemma runDeckOps_master ops d :
  startingDeckList (runDeckOps d ops) = startingDeckList d.
Proof.
  revert d. induction ops as [|op ops IH]; intros d; simpl; [done|].
  unfold runDeckOps in IH. by rewrite IH, runDeckOp_master.
Qed.

(** C9. After every call of [shuffle] the playing list is a permutation of
    the starting list (the same cards, each as often), every card of it shows
    its back, and the starting list is the one from before the call; it is
    still that list after any further sequence of [shuffle] and [getCard]
    calls. *)
Theorem shuffle_permutes_conceals_keeps_master (d : Deck) (g : Rng) (later : list DeckOp) :
  let d' := (shuffle d g).1 in
  playingDeckList d' ≡ₚ startingDeckList d' /\
  (forall c, c ∈ playingDeckList d' -> images d' c = back) /\
  startingDeckList d' = startingDeckList d /\
  startingDeckList (runDeckOps d' later) = startingDeckList d.
Proof.
  intros d'. subst d'. repeat split.
  - rewrite shuffle_master. apply shuffle_live.
  - intros c Hc. apply shuffle_concealed. by rewrite <- (shuffle_live d g).
  - apply shuffle_master.
  - by rewrite runDeckOps_master, shuffle_master.
Qed.

(* ===================================================================== *)
(** * One advance of the engine *)
(* ===================================================================== *)

Lemma pop_snoc2 {A} (l : list A) (a b : A) : pop (l ++ [a; b]) = Some (b, l ++ [a]).
Proof.
  replace (l ++ [a; b]) with ((l ++ [a]) ++ [b]) by (by rewrite <- (assoc_L (++))).
  apply pop_snoc.
Qed.

(** Attribute reads of assigned states, innermost assignment first. *)
Ltac attrs :=
  cbv [set_oDeck set_roundNumber set_cardsSet set_playerScore set_npcScore
       set_warNumber set_warMode set_anotherWar set_stack set_stackCardsToShow
       set_playerCardList set_npcCardList set_playerLaidCard set_npcLaidCard
       set_messageText set_gameOverText set_winnerText
       afterTie afterForfeit withTexts
       oDeck roundNumber cardsSet playerScore npcScore warNumber warMode
       anotherWar stack stackCardsToShow playerCardList npcCardList
       playerLaidCard npcLaidCard messageText gameOverText winnerText].

(** The monad operations applied to a state. *)
Lemma bind_eq {A B} (m : M A) (k : A -> M B) (s : Game) :
  bind m k s = match m s with
               | Returned a s' => k a s'
               | Raised e s' => Raised e s'
               end.
Proof. reflexivity. Qed.

Lemma modify_eq (f : Game -> Game) (s : Game) : modify f s = Returned tt (f s).
Proof. reflexivity. Qed.

Lemma gets_eq {A} (f : Game -> A) (s : Game) : gets f s = Returned (f s) s.
Proof. reflexivity. Qed.

Lemma ret_eq {A} (a : A) (s : Game) : ret a s = Returned a s.
Proof. reflexivity. Qed.

Lemma raise_eq {A} (e : Exn) (s : Game) : @raise A e s = Raised e s.
Proof. reflexivity. Qed.

Lemma popPlayer_eq (s : Game) :
  popPlayer s = match pop (playerCardList s) with
                | Some (oCard, rest) => Returned oCard (set_playerCardList rest s)
                | None => Raised (IndexError "pop from empty list") s
                end.
Proof. reflexivity. Qed.

Lemma popNpc_eq (s : Game) :
  popNpc s = match pop (npcCardList s) with
             | Some (oCard, rest) => Returned oCard (set_npcCardList rest s)
             | None => Raised (IndexError "pop from empty list") s
             end.
Proof. reflexivity. Qed.

Lemma getattr_eq (f : Game -> option Card) (name : string) (s : Game) :
  getattr f name s = match f s with
                     | Some oCard => Returned oCard s
                     | None => Raised (AttributeError name) s
                     end.
Proof. reflexivity. Qed.

Lemma setScores_eq (s : Game) :
  setScores s =
    Returned tt (set_npcScore (length (npcCardList s))
                   (set_playerScore (length (playerCardList s)) s)).
Proof. by destruct s. Qed.

(** Runs a method on a state given by its constructor: the operation at
    the head is applied to the state, the state is evaluated, and so on.
    The continuations stay folded. *)
Ltac run :=
  repeat (progress (
    rewrite ?bind_eq, ?modify_eq, ?gets_eq, ?ret_eq, ?raise_eq, ?popPlayer_eq,
      ?popNpc_eq, ?getattr_eq, ?setScores_eq;
    cbv beta;
    unfold returnCard, set_oDeck, set_roundNumber, set_cardsSet, set_playerScore,
      set_npcScore, set_warNumber, set_warMode, set_anotherWar, set_stack,
      set_stackCardsToShow, set_playerCardList, set_npcCardList,
      set_playerLaidCard, set_npcLaidCard, set_messageText, set_gameOverText,
      set_winnerText;
    cbn [oDeck roundNumber cardsSet playerScore npcScore warNumber warMode
         anotherWar stack stackCardsToShow playerCardList npcCardList
         playerLaidCard npcLaidCard messageText gameOverText winnerText negb];
    rewrite ?pop_snoc, ?pop_snoc2, ?pop_nil;
    cbv beta iota)).

(** [checkGameOver] against the decision table [verdict_spec]. *)
Lemma checkGameOver_run (p n : list Card) (r : nat) (s : Game) :
  MAX_ROUND_NUMBER = 100 /\
  exists s', checkGameOver p n r s =
               Returned (gameIsOver (verdict_spec p n r)) s' /\
    sameButTexts s s' /\
    match announced (verdict_spec p n r) with
    | Some text => winnerText s' = text /\ gameOverText s' = "Koniec gry!"
    | None => s' = s
    end.
Proof.
  split; [reflexivity|].
  unfold checkGameOver, verdict_spec, sameButTexts.
  destruct n as [|nc n].
  { rewrite decide_True by done. destruct s. cbn [length Nat.eqb]. run. cbn.
    eauto. }
  rewrite (decide_False (P := nc :: n = [])) by done.
  destruct p as [|pc p].
  { rewrite decide_True by done. destruct s. cbn [length Nat.eqb]. run. cbn.
    eauto. }
  rewrite (decide_False (P := pc :: p = [])) by done.
  change (length (nc :: n) =? 0) with false.
  change (length (pc :: p) =? 0) with false.
  cbv iota. unfold MAX_ROUND_NUMBER.
  destruct (Nat.eqb_spec r 100) as [->|Hr].
  - rewrite decide_True by done.
    destruct (Nat.ltb_spec (length (nc :: n)) (length (pc :: p))).
    { rewrite decide_True by done. destruct s. run. cbn. eauto. }
    rewrite (decide_False (P := length (nc :: n) < _)) by lia.
    destruct (Nat.ltb_spec (length (pc :: p)) (length (nc :: n))).
    { rewrite decide_True by done. destruct s. run. cbn. eauto. }
    rewrite (decide_False (P := length (pc :: p) < _)) by lia.
    destruct s. run. cbn. eauto.
  - rewrite (decide_False (P := r = 100)) by done. destruct s. run. cbn. eauto.
Qed.

(** C7. [checkGameOver] decides as the three ordered checks of the
    specification do, with [MAX_ROUND_NUMBER] = 100: it returns whether the
    game is over, announces the verdict in [winnerText] together with
    "Koniec gry!", and changes nothing but texts; when no check fires it
    changes nothing at all. *)
Theorem checkGameOver_fixed_order (p n : list Card) (r : nat) (s : Game) :
  MAX_ROUND_NUMBER = 100 /\
  exists s', checkGameOver p n r s =
               Returned (gameIsOver (verdict_spec p n r)) s' /\
    sameButTexts s s' /\
    match announced (verdict_spec p n r) with
    | Some text => winnerText s' = text /\ gameOverText s' = "Koniec gry!"
    | None => s' = s
    end.
Proof. apply checkGameOver_run. Qed.

(** [checkGameOver] on the engine's own piles: it always returns, with the
    verdict of the three checks, in a state that differs in texts only. *)
Lemma checkGameOverSelf_run (s : Game) :
  let v := verdict_spec (playerCardList s) (npcCardList s) (roundNumber s) in
  exists m g w,
    checkGameOverSelf s =
      Returned (gameIsOver v) (set_winnerText w (set_gameOverText g (set_messageText m s))) /\
    (forall text, announced v = Some text -> w = text).
Proof.
  intros v. unfold checkGameOverSelf.
  destruct (checkGameOver_run (playerCardList s) (npcCardList s) (roundNumber s) s)
    as (_ & s' & E & Hs & Hv).
  exists (messageText s'), (gameOverText s'), (winnerText s').
  rewrite E. unfold sameButTexts in Hs. rewrite <- Hs. split; [done|].
  intros text Ht. fold v in Hv. rewrite Ht in Hv. by destruct Hv.
Qed.

Ltac run_check m g w Hw :=
  match goal with
  | |- context [checkGameOverSelf ?S] =>
      destruct (checkGameOverSelf_run S) as (m & g & w & -> & Hw)
  end; run.

(** C5. In a NORMAL-phase round whose laid cards differ in value, the
    winner's list gets the two laid cards at index 0, the loser's card in
    front of the winner's, so that after all cards the winner already held
    the winner's laid card is drawn first and the loser's next; the loser's
    pile is its old pile without the laid card. *)
Theorem gamePlay_higher_card_takes_both (s : Game) (p n : list Card) (pc nc : Card) :
  cardsSet s = true -> warMode s = false -> stackCardsToShow s = false ->
  playerCardList s = p ++ [pc] -> npcCardList s = n ++ [nc] ->
  getValue pc <> getValue nc ->
  exists b s', manageGame s = Returned (Some b) s' /\
    if (getValue pc >? getValue nc)%Z
    then playerCardList s' = nc :: pc :: p /\ npcCardList s' = n /\
         drawOrder (playerCardList s') = drawOrder p ++ [pc; nc]
    else npcCardList s' = pc :: nc :: n /\ playerCardList s' = p /\
         drawOrder (npcCardList s') = drawOrder n ++ [nc; pc].
Proof.
  intros Hset Hwar Hshow Hp Hn Hne. destruct s. simpl in *. subst.
  unfold manageGame, gamePlay. run.
  destruct (getValue pc >? getValue nc)%Z eqn:Hgt.
  - run. run_check m g w Hw. eexists _, _. split; [reflexivity|]. cbn [playerCardList npcCardList]. repeat split.
    unfold drawOrder. by rewrite !reverse_cons, <- (assoc_L (++)).
  - assert ((getValue pc <? getValue nc)%Z = true) as ->.
    { apply Z.ltb_lt. rewrite Z.gtb_ltb in Hgt. apply Z.ltb_ge in Hgt. lia. }
    run. run_check m g w Hw. eexists _, _. split; [reflexivity|]. cbn [playerCardList npcCardList]. repeat split.
    unfold drawOrder. by rewrite !reverse_cons, <- (assoc_L (++)).
Qed.

Lemma list_snoc_cases {A} (l : list A) : l = [] \/ exists l' x, l = l' ++ [x].
Proof. destruct l as [|x l] using rev_ind; eauto. Qed.

Lemma list_snoc2_cases {A} (l : list A) :
  length l < 2 \/ exists l' a b, l = l' ++ [a; b].
Proof.
  destruct (list_snoc_cases l) as [->|(l1 & b & ->)]; [simpl; lia|].
  destruct (list_snoc_cases l1) as [->|(l2 & a & ->)]; [simpl; lia|].
  right. exists l2, a, b. by rewrite <- (assoc_L (++)).
Qed.

Lemma Z_compare_eq (a b : Z) :
  a = b -> (a >? b)%Z = false /\ (a <? b)%Z = false.
Proof. intros ->. by rewrite Z.gtb_ltb, Z.ltb_irrefl. Qed.

Lemma Z_compare_ne (a b : Z) :
  a <> b -> (a >? b)%Z = false -> (a <? b)%Z = true.
Proof. rewrite Z.gtb_ltb. intros Hne Hgt%Z.ltb_ge. apply Z.ltb_lt. lia. Qed.

(** [warChecking] in one equation: the player is checked first. *)
Lemma warChecking_run (s : Game) :
  warChecking s =
    if length (playerCardList s) <? 2 then Returned true (afterForfeit Player s)
    else if length (npcCardList s) <? 2 then Returned true (afterForfeit Npc s)
    else Returned false s.
Proof.
  destruct s. attrs. unfold warChecking. run.
  destruct (length playerCardList0 <? 2); run; [done|].
  by destruct (length npcCardList0 <? 2); run.
Qed.

(** [gamePlay] on a tie, up to the game-over check at its end. *)
Lemma gamePlay_tie_run (s : Game) (p n : list Card) (pc nc : Card) :
  playerCardList s = p ++ [pc] -> npcCardList s = n ++ [nc] ->
  getValue pc = getValue nc ->
  gamePlay s =
    match warChecking (afterTie s p n pc nc) with
    | Returned _ s2 => checkGameOverSelf s2
    | Raised e s2 => Raised e s2
    end.
Proof.
  intros Hp Hn [Hgt Hlt]%Z_compare_eq. destruct s. simpl in *. subst.
  attrs. unfold gamePlay. run. rewrite Hgt, Hlt. run.
  match goal with |- context [warChecking ?S] => by destruct (warChecking S) end.
Qed.

(** [gamePlay] when one card is higher, up to the game-over check. *)
Lemma gamePlay_decisive_run (s : Game) (p n : list Card) (pc nc : Card) :
  playerCardList s = p ++ [pc] -> npcCardList s = n ++ [nc] ->
  getValue pc <> getValue nc -> warMode s = false ->
  gamePlay s = checkGameOverSelf (afterRound s p n pc nc).
Proof.
  intros Hp Hn Hne Hwar. destruct s. simpl in *. subst.
  unfold afterRound. destruct (getValue pc >? getValue nc)%Z eqn:Hgt.
  - attrs. unfold gamePlay. run. rewrite Hgt. by run.
  - attrs. unfold gamePlay. run. rewrite Hgt, (Z_compare_ne _ _ Hne Hgt). by run.
Qed.

Lemma manageGame_gamePlay (s : Game) :
  cardsSet s = true -> warMode s = false -> stackCardsToShow s = false ->
  manageGame s = reported (gamePlay s).
Proof. intros H1 H2 H3. destruct s. cbn in *. subst. unfold manageGame. by run. Qed.

Lemma manageGame_war (s : Game) :
  cardsSet s = true -> warMode s = true -> manageGame s = reported (war s).
Proof. intros H1 H2. destruct s. cbn in *. subst. unfold manageGame. by run. Qed.

Lemma manageGame_showStackCards (s : Game) :
  cardsSet s = true -> warMode s = false -> stackCardsToShow s = true ->
  manageGame s = reported (showStackCards s).
Proof. intros H1 H2 H3. destruct s. cbn in *. subst. unfold manageGame. by run. Qed.

Lemma length_snoc2_ltb {A} (l : list A) (a b : A) : (length (l ++ [a; b]) <? 2) = false.
Proof. apply Nat.ltb_ge. rewrite length_app. simpl. lia. Qed.

Lemma warRound_run (s : Game) (p n : list Card) (ps pn ns nn : Card) :
  playerCardList s = p ++ [pn; ps] -> npcCardList s = n ++ [nn; ns] ->
  warRound s = Returned false (afterWarRound s p n ps pn ns nn).
Proof.
  intros Hp Hn. destruct s. simpl in *. subst. unfold afterWarRound.
  destruct (getValue pn >? getValue nn)%Z eqn:Hgt;
    [|destruct (getValue pn <? getValue nn)%Z eqn:Hlt];
    attrs; unfold warRound; run; rewrite ?Hgt, ?Hlt; by run.
Qed.

Lemma war_first_run (s : Game) (pl nl : Card) :
  anotherWar s = false -> playerLaidCard s = Some pl -> npcLaidCard s = Some nl ->
  war s = warRound (set_stack (stack s ++ [pl; nl]) s).
Proof.
  intros H1 H2 H3. destruct s. simpl in *. subst. unfold war. run.
  by rewrite <- (assoc_L (++)).
Qed.

Lemma war_chain_run (s : Game) :
  anotherWar s = true ->
  war s = match warChecking s with
          | Returned true s1 => checkGameOverSelf s1
          | Returned false s1 => warRound s1
          | Raised e s1 => Raised e s1
          end.
Proof.
  intros H1. destruct s. simpl in *. subst. unfold war. run.
  match goal with |- context [warChecking ?S] => by destruct (warChecking S) as [[|] ?|] end.
Qed.

(** A war round on piles that hold two cards each; [pre] is what the
    advance puts on the stack before the round: the two tied laid cards
    when the war starts, nothing in a chained war. *)
Lemma war_run (s : Game) (p n : list Card) (ps pn ns nn : Card) :
  (anotherWar s = false ->
   is_Some (playerLaidCard s) /\ is_Some (npcLaidCard s)) ->
  playerCardList s = p ++ [pn; ps] -> npcCardList s = n ++ [nn; ns] ->
  exists pre,
    pre = (if anotherWar s then [] else laidCards s) /\
    war s = Returned false
              (afterWarRound (set_stack (stack s ++ pre) s) p n ps pn ns nn).
Proof.
  intros Hlaid Hp Hn. destruct (anotherWar s) eqn:Hchain.
  - exists []. split; [done|]. rewrite war_chain_run, warChecking_run by done.
    rewrite Hp, Hn, !length_snoc2_ltb, (right_id_L [] (++)).
    rewrite (warRound_run s p n ps pn ns nn) by done.
    by destruct s.
  - destruct Hlaid as [[pl Hpl] [nl Hnl]]; [done|].
    exists [pl; nl]. split; [unfold laidCards; by rewrite Hpl, Hnl|].
    rewrite (war_first_run s pl nl) by done.
    by apply warRound_run.
Qed.

(** C1 (amended). A war advance on piles of at least two cards whose new
    laid cards differ in value returns [False] with the reveal pending; the
    stack keeps its order, extended by the cards of this advance, and the
    winner's list becomes the stack followed by the winner's remaining
    cards.  The draw end is the END of the list, so the winner's remaining
    cards are all drawn before any card of the stack. *)
Theorem war_decisive_stack_goes_behind (s : Game) (p n : list Card)
    (ps pn ns nn : Card) :
  cardsSet s = true -> warMode s = true ->
  (anotherWar s = false -> is_Some (playerLaidCard s) /\ is_Some (npcLaidCard s)) ->
  playerCardList s = p ++ [pn; ps] -> npcCardList s = n ++ [nn; ns] ->
  getValue pn <> getValue nn ->
  exists s', manageGame s = Returned (Some false) s' /\
    stackCardsToShow s' = true /\ warMode s' = false /\ anotherWar s' = false /\
    (exists pre, stack s' = stack s ++ pre ++ [ps; ns; pn; nn]) /\
    if (getValue pn >? getValue nn)%Z
    then playerCardList s' = stack s' ++ p /\ npcCardList s' = n /\
         drawOrder (playerCardList s') = drawOrder p ++ drawOrder (stack s')
    else npcCardList s' = stack s' ++ n /\ playerCardList s' = p /\
         drawOrder (npcCardList s') = drawOrder n ++ drawOrder (stack s').
Proof.
  intros Hset Hwar Hlaid Hp Hn Hne.
  destruct (war_run s p n ps pn ns nn Hlaid Hp Hn) as (pre & _ & E).
  rewrite manageGame_war, E by done. eexists. split; [reflexivity|].
  unfold afterWarRound, drawOrder.
  destruct (getValue pn >? getValue nn)%Z eqn:Hgt.
  - destruct s; attrs. rewrite reverse_app, <- (assoc_L (++)). eauto 10.
  - rewrite (Z_compare_ne _ _ Hne Hgt).
    destruct s; attrs. rewrite reverse_app, <- (assoc_L (++)). eauto 10.
Qed.


(** C2 (amended). A NORMAL-phase advance whose laid cards tie returns with
    [warMode] set, the stack as it was, and the two tied cards held as
    [playerLaidCard] and [npcLaidCard]; when both sides keep at least two
    cards, each pile is its old pile without the laid card, and the war
    advance that follows puts the two tied cards on the stack first. *)
Theorem gamePlay_tie_holds_laid_cards (s : Game) (p n : list Card) (pc nc : Card) :
  cardsSet s = true -> warMode s = false -> stackCardsToShow s = false ->
  playerCardList s = p ++ [pc] -> npcCardList s = n ++ [nc] ->
  getValue pc = getValue nc ->
  exists b s', manageGame s = Returned (Some b) s' /\
    warMode s' = true /\ stack s' = stack s /\
    playerLaidCard s' = Some pc /\ npcLaidCard s' = Some nc /\
    (2 <= length p -> 2 <= length n ->
     playerCardList s' = p /\ npcCardList s' = n /\
     (anotherWar s = false ->
      exists s'' four, manageGame s' = Returned (Some false) s'' /\
        stack s'' = stack s ++ [pc; nc] ++ four)).
Proof.
  intros Hset Hwar Hshow Hp Hn Hv.
  rewrite manageGame_gamePlay, (gamePlay_tie_run s p n pc nc), warChecking_run by done.
  destruct s. simpl in *. subst. attrs.
  destruct (Nat.ltb_spec (length p) 2) as [Hp2|Hp2].
  { run_check m g w Hw. eexists _, _. split; [reflexivity|]. attrs. repeat (split; [reflexivity|]). intros. lia. }
  destruct (Nat.ltb_spec (length n) 2) as [Hn2|Hn2].
  { run_check m g w Hw. eexists _, _. split; [reflexivity|]. attrs. repeat (split; [reflexivity|]). intros. lia. }
  run_check m g w Hw. eexists _, _. split; [reflexivity|]. attrs.
  repeat split; try reflexivity. intros ->.
  destruct (list_snoc2_cases p) as [?|(p' & pn & ps & ->)]; [lia|].
  destruct (list_snoc2_cases n) as [?|(n' & nn & ns & ->)]; [lia|].
  match goal with |- context [manageGame ?S] =>
    destruct (war_run S p' n' ps pn ns nn) as (pre & -> & E); [by eauto|done|done|];
    rewrite (manageGame_war S), E by done
  end.
  eexists _, [ps; ns; pn; nn]. split; [reflexivity|].
  unfold afterWarRound.
  destruct (getValue pn >? getValue nn)%Z; [|destruct (getValue pn <? getValue nn)%Z];
    attrs; by rewrite <- (assoc_L (++)).
Qed.


(* ===================================================================== *)
(** * Dealing *)
(* ===================================================================== *)

Lemma parity_succ (i : nat) : (S i mod 2 =? 0) = negb (i mod 2 =? 0).
Proof.
  pose proof (Nat.mod_upper_bound i 2). pose proof (Nat.mod_upper_bound (S i) 2).
  pose proof (Nat.div_mod_eq i 2). pose proof (Nat.div_mod_eq (S i) 2).
  destruct (Nat.eqb_spec (S i mod 2) 0), (Nat.eqb_spec (i mod 2) 0); simpl;
    try done; lia.
Qed.

Lemma deckGetCard_snoc (s : Game) (live : list Card) (c : Card) :
  playingDeckList (oDeck s) = live ++ [c] ->
  deckGetCard s =
    Returned c (set_oDeck (mkDeck (startingDeckList (oDeck s)) live (images (oDeck s))) s).
Proof.
  intros E. unfold deckGetCard, getCard. rewrite E, pop_snoc, length_app, Nat.add_1_r.
  reflexivity.
Qed.

(** One turn of the loop: the card at the end of the playing list goes to
    the player on an even index, to the opponent on an odd one. *)
Lemma dealOne_run (i : nat) (s : Game) (live : list Card) (c : Card) :
  playingDeckList (oDeck s) = live ++ [c] ->
  dealOne i s =
    Returned tt
      (let s1 := set_oDeck (mkDeck (startingDeckList (oDeck s)) live (images (oDeck s))) s in
       if i mod 2 =? 0
       then set_playerCardList (playerCardList s ++ [c]) s1
       else set_npcCardList (npcCardList s ++ [c]) s1).
Proof.
  intros E. unfold dealOne.
  destruct (i mod 2 =? 0); rewrite bind_eq, (deckGetCard_snoc s live c E); by destruct s.
Qed.

(** [i] is the index the loop is at: on an even index the player is served
    first.  The dealt cards are the playing list, which ends empty; the side
    served first gets one card more when the list is odd. *)
Lemma deal_loop (live : list Card) :
  forall (i : nat) (s : Game),
    playingDeckList (oDeck s) = live ->
    exists p n,
      forRange (seq i (length live)) dealOne s =
        Returned tt
          (set_npcCardList (npcCardList s ++ n)
             (set_playerCardList (playerCardList s ++ p)
                (set_oDeck (mkDeck (startingDeckList (oDeck s)) []
                              (images (oDeck s))) s))) /\
      p ++ n ≡ₚ live /\
      if i mod 2 =? 0
      then length n <= length p <= length n + 1
      else length p <= length n <= length p + 1.
Proof.
  induction live as [|c live IH] using rev_ind; intros i s Hlive.
  - exists [], []. split; [|split; [done|destruct (_ =? _); simpl; lia]].
    destruct s as [[] ?]. simpl in *. subst. cbn.
    by rewrite !(right_id_L [] (++)).
  - rewrite length_app, Nat.add_1_r. cbn [seq forRange].
    rewrite bind_eq, (dealOne_run i s live c Hlive). cbv zeta.
    destruct (i mod 2 =? 0) eqn:Hpar.
    + match goal with |- context [forRange _ _ ?st] =>
        destruct (IH (S i) st) as (p & n & -> & Hperm & Hlen); [by destruct s|] end.
      rewrite parity_succ, Hpar in Hlen. simpl in Hlen.
      exists (c :: p), n. split; [|split; [|simpl; lia]].
      * destruct s. attrs. by rewrite <- (assoc_L (++)).
      * rewrite <- Hperm. solve_Permutation.
    + match goal with |- context [forRange _ _ ?st] =>
        destruct (IH (S i) st) as (p & n & -> & Hperm & Hlen); [by destruct s|] end.
      rewrite parity_succ, Hpar in Hlen. simpl in Hlen.
      exists p, (c :: n). split; [|split; [|simpl; lia]].
      * destruct s. attrs. by rewrite <- (assoc_L (++)).
      * rewrite <- Hperm. solve_Permutation.
Qed.

Lemma standardDeck_length : length standardDeck = 24.
Proof. reflexivity. Qed.

Lemma standardDeck_NoDup : NoDup standardDeck.
Proof. apply (bool_decide_unpack _). vm_compute. exact I. Qed.

(** [dealCards] on the attributes [__init__] has just assigned. *)
Lemma dealCards_run (d : Deck) (g : Rng) :
  exists p n d',
    dealCards g (newGameAttributes d) =
      Returned (shuffle d g).2
        (set_npcCardList n (set_playerCardList p (set_oDeck d' (newGameAttributes d)))) /\
    startingDeckList d' = startingDeckList d /\
    playingDeckList d' = [] /\
    p ++ n ≡ₚ startingDeckList d /\
    length n <= length p <= length n + 1.
Proof.
  unfold dealCards. rewrite bind_eq, gets_eq. cbv beta iota.
  change (oDeck (newGameAttributes d)) with d.
  pose proof (shuffle_master d g) as Hmaster. pose proof (shuffle_live d g) as Hlive.
  destruct (shuffle d g) as [d1 g1]. simpl in Hmaster, Hlive.
  unfold newGameAttributes. run.
  assert (length (startingDeckList d1) = length (playingDeckList d1)) as ->.
  { by rewrite Hmaster, Hlive. }
  match goal with |- context [forRange _ _ ?st] =>
    destruct (deal_loop (playingDeckList d1) 0 st eq_refl) as (p & n & -> & Hperm & Hlen)
  end.
  exists p, n. eexists. split; [attrs; reflexivity|].
  split; [done|]. split; [done|]. split; [by rewrite Hperm, Hlive|done].
Qed.

(** The state [Game.__init__] leaves: twelve cards each, NORMAL phase. *)
Lemma Game_init_run (g : Rng) :
  exists g' s, Game_init g = Returned g' s /\ runningInv s /\
    length (playerCardList s) = 12 /\ length (npcCardList s) = 12.
Proof.
  unfold Game_init, Deck_init.
  destruct (shuffle _ g) as [d g1] eqn:Hsh.
  pose proof (shuffle_master (mkDeck (buildCards STANDARD_DICT) [] newImages) g) as Hmaster.
  rewrite Hsh in Hmaster. simpl in Hmaster. fold standardDeck in Hmaster.
  unfold Game_with_deck. unfold bind at 1 2.
  destruct (dealCards_run d g1) as (p & n & d' & -> & Hd' & _ & Hperm & Hlen).
  rewrite Hmaster in Hperm.
  assert (length p = 12 /\ length n = 12) as [Hp12 Hn12].
  { apply Permutation_length in Hperm.
    rewrite length_app, standardDeck_length in Hperm. lia. }
  destruct p as [|p0 p] using rev_ind; [done|].
  destruct n as [|n0 n] using rev_ind; [done|].
  clear IHp IHn.
  unfold newGameAttributes. attrs. unfold manageGame. run.
  unfold firstView. run. rewrite last_snoc. run. rewrite last_snoc. run.
  eexists _, _. split; [reflexivity|]. attrs. split; [|done].
  split; attrs; [done|by rewrite Hd'|]. left. split.
  - split; attrs; try done. intros c Hc. by apply elem_of_nil in Hc.
  - split; intros E; by apply app_nil in E as [_ [=]].
Qed.


(* ===================================================================== *)
(** * The phases are kept by every advance *)
(* ===================================================================== *)

Arguments standardDeck : simpl never.

Lemma verdict_continues (p n : list Card) (r : nat) :
  gameIsOver (verdict_spec p n r) = false -> p <> [] /\ n <> [].
Proof.
  unfold verdict_spec. repeat case_decide; simpl; try done.
Qed.

Lemma verdict_empty_pile (p n : list Card) (r : nat) :
  p = [] \/ n = [] -> gameIsOver (verdict_spec p n r) = true.
Proof.
  unfold verdict_spec. intros [->| ->]; repeat case_decide; simpl; done.
Qed.

(** The game-over check in the form the phase proofs use it. *)
Lemma checkGameOverSelf_texts (s : Game) :
  exists m g w,
    checkGameOverSelf s =
      Returned (gameIsOver (verdict_spec (playerCardList s) (npcCardList s) (roundNumber s)))
        (withTexts m g w s).
Proof.
  destruct (checkGameOverSelf_run s) as (m & g & w & E & _). by exists m, g, w.
Qed.

Lemma laidWithin_texts cards m g w s : laidWithin cards (withTexts m g w s) <-> laidWithin cards s.
Proof. done. Qed.

Ltac check_game_over m g w :=
  match goal with
  | |- context [checkGameOverSelf ?S] =>
      destruct (checkGameOverSelf_texts S) as (m & g & w & ->)
  end.

Ltac perm_from H := rewrite <- H; solve_Permutation.

(** The game is over in the state an advance left with [True]. *)
Ltac is_over Hb :=
  first [exact Hb
        |unfold over; apply verdict_empty_pile; first [by left|by right]].

(** Membership in lists built with [::] and [++]. *)
Ltac elem_of_lists :=
  repeat (progress (rewrite ?elem_of_app, ?elem_of_cons, ?elem_of_nil in * ));
  tauto.

(** A NORMAL-phase advance. *)
Lemma normal_advance (s : Game) :
  cardsSet s = true -> startingDeckList (oDeck s) = standardDeck ->
  normalPhase s -> playerCardList s <> [] -> npcCardList s <> [] ->
  exists b s', manageGame s = Returned (Some b) s' /\
    (b = false -> runningInv s') /\ (b = true -> conserved s' /\ over s').
Proof.
  intros Hset Hdeck [Hwar Hchain Hpend Hstack Hperm Hlaid] Hp Hn.
  destruct (list_snoc_cases (playerCardList s)) as [?|(p & pc & Ep)]; [done|].
  destruct (list_snoc_cases (npcCardList s)) as [?|(n & nc & En)]; [done|].
  rewrite manageGame_gamePlay by done. clear Hp Hn.
  destruct s. simpl in *. subst.
  assert (pc :: nc :: p ++ n ≡ₚ standardDeck) as Hperm' by perm_from Hperm.
  destruct (decide (getValue pc = getValue nc)) as [Hv|Hv].
  - rewrite (gamePlay_tie_run _ p n pc nc), warChecking_run by done. attrs.
    destruct (Nat.ltb_spec (length p) 2) as [Hp2|Hp2];
      [|destruct (Nat.ltb_spec (length n) 2) as [Hn2|Hn2]].
    + check_game_over m g w. attrs. rewrite verdict_empty_pile by eauto.
      eexists _, _. split; [reflexivity|]. split; [done|]. intros Hb. split; [|is_over Hb].
      split; [done|done|]. right; left. split; [done|].
      exists pc, nc. repeat split. attrs. perm_from Hperm.
    + check_game_over m g w. attrs. rewrite verdict_empty_pile by eauto.
      eexists _, _. split; [reflexivity|]. split; [done|]. intros Hb. split; [|is_over Hb].
      split; [done|done|]. right; left. split; [done|].
      exists pc, nc. repeat split. attrs. perm_from Hperm.
    + check_game_over m g w. attrs. eexists _, _. split; [reflexivity|]. split.
      * intros _. split; [done|done|]. right; left.
        split; [|done]. split; try done. by exists pc, nc.
      * intros Hb. split; [|is_over Hb].
        split; [done|done|]. right; left. split; [done|]. by exists pc, nc.
  - rewrite (gamePlay_decisive_run _ p n pc nc) by done.
    check_game_over m g w. unfold afterRound.
    destruct (getValue pc >? getValue nc)%Z; attrs.
    + eexists _, _. split; [reflexivity|].
      assert ((nc :: pc :: p) ++ n ≡ₚ standardDeck) as Hperm2 by perm_from Hperm.
      assert (laidWithin standardDeck
                (mkGame oDeck0 (roundNumber0 + 1) true (length (nc :: pc :: p)) (length n)
                   warNumber0 false false [] false (nc :: pc :: p) n (Some pc) (Some nc)
                   m g w)) as Hlaid2.
      { intros c. unfold laidCards. attrs. rewrite <- Hperm. cbn. elem_of_lists. }
      split.
      * intros [? ?]%verdict_continues. split; [done|done|]. left. done.
      * intros Hb. split; [|is_over Hb].
        split; [done|done|]. left. split; [done|]. split; [|done].
        intros c Hc. by apply elem_of_nil in Hc.
    + eexists _, _. split; [reflexivity|].
      assert (p ++ pc :: nc :: n ≡ₚ standardDeck) as Hperm2 by perm_from Hperm.
      assert (laidWithin standardDeck
                (mkGame oDeck0 (roundNumber0 + 1) true (length p) (length (pc :: nc :: n))
                   warNumber0 false false [] false p (pc :: nc :: n) (Some pc) (Some nc)
                   m g w)) as Hlaid2.
      { intros c. unfold laidCards. attrs. rewrite <- Hperm. cbn. elem_of_lists. }
      split.
      * intros [? ?]%verdict_continues. split; [done|done|]. left. done.
      * intros Hb. split; [|is_over Hb].
        split; [done|done|]. left. split; [done|]. split; [|done].
        intros c Hc. by apply elem_of_nil in Hc.
Qed.


(** What a war round leaves, given where the cards were before it. *)
Lemma warRound_phase (s : Game) (p n : list Card) (ps pn ns nn : Card) :
  cardsSet s = true -> startingDeckList (oDeck s) = standardDeck ->
  warMode s = true -> stackCardsToShow s = false ->
  stack s <> [] -> laidWithin (stack s) s ->
  (p ++ [pn; ps]) ++ (n ++ [nn; ns]) ++ stack s ≡ₚ standardDeck ->
  runningInv (afterWarRound s p n ps pn ns nn).
Proof.
  intros Hset Hdeck Hwar Hpend Hstack Hlaid Hperm.
  assert (forall c, c ∈ stack s ++ [ps; ns; pn; nn] -> c ∈ standardDeck) as Hin.
  { intros c. rewrite <- Hperm. elem_of_lists. }
  assert (forall c, c ∈ laidCards s -> c ∈ stack s ++ [ps; ns; pn; nn]) as Hlaid2.
  { intros c Hc. apply elem_of_app. left. by apply Hlaid. }
  clear Hlaid. destruct s. unfold laidCards in *. simpl in *. subst. unfold afterWarRound.
  destruct (getValue pn >? getValue nn)%Z; [|destruct (getValue pn <? getValue nn)%Z];
    attrs.
  - split; [done|done|]. right; right; right.
    split; try done; [perm_from Hperm|]. intros c Hc. by apply Hin, Hlaid2.
  - split; [done|done|]. right; right; right.
    split; try done; [perm_from Hperm|]. intros c Hc. by apply Hin, Hlaid2.
  - split; [done|done|]. right; right; left.
    split; try done; [perm_from Hperm|]. intros E. by apply app_nil in E as [_ [=]].
Qed.

(** The war advance that follows a tied round. *)
Lemma tie_advance (s : Game) :
  cardsSet s = true -> startingDeckList (oDeck s) = standardDeck ->
  tiePhase s -> 2 <= length (playerCardList s) -> 2 <= length (npcCardList s) ->
  exists s', manageGame s = Returned (Some false) s' /\ runningInv s'.
Proof.
  intros Hset Hdeck [Hwar Hchain Hpend Hstack (pc & nc & Hpl & Hnl & Hperm)] Hp Hn.
  destruct (list_snoc2_cases (playerCardList s)) as [?|(p & pn & ps & Ep)]; [lia|].
  destruct (list_snoc2_cases (npcCardList s)) as [?|(n & nn & ns & En)]; [lia|].
  rewrite manageGame_war, (war_first_run s pc nc) by done.
  rewrite (warRound_run _ p n ps pn ns nn) by (by destruct s).
  eexists. split; [reflexivity|].
  destruct s. simpl in *. subst.
  apply warRound_phase; unfold laidWithin, laidCards; attrs; try done.
  perm_from Hperm.
Qed.

(** A chained war advance. *)
Lemma chain_advance (s : Game) :
  cardsSet s = true -> startingDeckList (oDeck s) = standardDeck ->
  chainPhase s ->
  exists b s', manageGame s = Returned (Some b) s' /\
    (b = false -> runningInv s') /\ (b = true -> conserved s' /\ over s').
Proof.
  intros Hset Hdeck [Hwar Hchain Hpend Hperm Hstack Hlaid].
  rewrite manageGame_war, war_chain_run, warChecking_run by done.
  assert (forall c, c ∈ stack s -> c ∈ standardDeck) as Hin.
  { intros c. rewrite <- Hperm. elem_of_lists. }
  assert (laidWithin standardDeck s) as Hlaid'.
  { intros c Hc. by apply Hin, Hlaid. }
  destruct (list_snoc2_cases (playerCardList s)) as [Hp|(p & pn & ps & Ep)].
  { apply Nat.ltb_lt in Hp as ->. check_game_over m g w.
    destruct s. unfold laidWithin, laidCards in *. simpl in *. subst. attrs.
    eexists _, _. split; [reflexivity|].
    split; [intros Hb; first [done|by apply verdict_continues in Hb as [? ?]]|].
    intros Hb. split; [|is_over Hb]. split; [done|done|]. left. split; [perm_from Hperm|done]. }
  rewrite Ep, length_snoc2_ltb.
  destruct (list_snoc2_cases (npcCardList s)) as [Hn|(n & nn & ns & En)].
  { apply Nat.ltb_lt in Hn as ->. check_game_over m g w.
    destruct s. unfold laidWithin, laidCards in *. simpl in *. subst. attrs.
    eexists _, _. split; [reflexivity|].
    split; [intros Hb; first [done|by apply verdict_continues in Hb as [? ?]]|].
    intros Hb. split; [|is_over Hb]. split; [done|done|]. left. split; [perm_from Hperm|done]. }
  rewrite En, length_snoc2_ltb.
  rewrite (warRound_run s p n ps pn ns nn) by done.
  eexists _, _. split; [reflexivity|]. split; [|done]. intros _.
  apply warRound_phase; try done. by rewrite <- Ep, <- En.
Qed.

Lemma showStackCards_run (s : Game) :
  showStackCards s = checkGameOverSelf (set_stack [] (set_stackCardsToShow false s)).
Proof. unfold showStackCards. destruct s. by run. Qed.

(** The advance that shows the stack of a decided war. *)
Lemma reveal_advance (s : Game) :
  cardsSet s = true -> startingDeckList (oDeck s) = standardDeck ->
  revealPhase s ->
  exists b s', manageGame s = Returned (Some b) s' /\
    (b = false -> runningInv s') /\ (b = true -> conserved s' /\ over s').
Proof.
  intros Hset Hdeck [Hwar Hchain Hpend Hperm Hstack Hlaid].
  rewrite manageGame_showStackCards, showStackCards_run by done.
  check_game_over m g w.
  destruct s. unfold laidWithin, laidCards in *. simpl in *. subst. attrs.
  eexists _, _. split; [reflexivity|]. split.
  - intros [? ?]%verdict_continues. split; [done|done|]. left.
    split; [|done]. by split.
  - intros Hb. split; [|is_over Hb]. split; [done|done|]. left. split; [done|]. split; [|done].
    intros c Hc. by apply elem_of_nil in Hc.
Qed.

(** Every advance of a running game returns; when it returns [False] the
    game is in one of its phases again, and when it returns [True] the cards
    are still all accounted for. *)
Lemma running_advance (s : Game) :
  runningInv s ->
  exists b s', manageGame s = Returned (Some b) s' /\
    (b = false -> runningInv s') /\ (b = true -> conserved s' /\ over s').
Proof.
  intros [Hset Hdeck [(Hn & ? & ?)|[(Ht & ? & ?)|[Hc|Hr]]]].
  - by apply normal_advance.
  - destruct (tie_advance s) as (s' & E & Hs'); try done.
    exists false, s'. by split.
  - by apply chain_advance.
  - by apply reveal_advance.
Qed.

Lemma runningInv_conserved (s : Game) : runningInv s -> conserved s.
Proof.
  intros [Hset Hdeck [([? ? ? Hstack ? ?] & ? & ?)|[([] & ? & ?)|[[]|[]]]]];
    split; try done.
  - left. split; [done|]. split; [|done]. intros c. rewrite Hstack.
    by intros ?%elem_of_nil.
  - right; left. done.
  - right; right. done.
  - left. done.
Qed.

Lemma running_runningInv (s : Game) : running s -> runningInv s.
Proof.
  induction 1 as [g g' s E|s r s' _ IH E Hr].
  - destruct (Game_init_run g) as (g1 & s1 & E1 & Hinv & _). congruence.
  - destruct (running_advance s IH) as (b & s1 & E1 & Hrun & _).
    rewrite E1 in E. injection E as <- <-. destruct b; [done|]. by apply Hrun.
Qed.

Lemma gameOverState_over (s : Game) : gameOverState s -> conserved s /\ over s.
Proof.
  intros (s0 & Hrun & E).
  destruct (running_advance s0 (running_runningInv _ Hrun)) as (b & s1 & E1 & _ & Hover).
  rewrite E1 in E. injection E as -> <-. by apply Hover.
Qed.

Lemma reachable_conserved (s : Game) : reachable s -> conserved s.
Proof.
  intros [Hrun|Hover].
  - by apply runningInv_conserved, running_runningInv.
  - by apply gameOverState_over.
Qed.

(* ===================================================================== *)
(** * Conservation of the cards *)
(* ===================================================================== *)

Section Filter.
Context {A : Type} (P : A -> Prop) `{!forall x, Decision (P x)}.

Lemma filter_none (l : list A) : (forall x, x ∈ l -> ~ P x) -> filter P l = [].
Proof.
    induction l as [|x l IH]; intros Hall; [done|].
    rewrite filter_cons_False by (apply Hall; left).
    apply IH. intros y Hy. apply Hall. by right.
Qed.

Lemma filter_all (l : list A) : (forall x, x ∈ l -> P x) -> filter P l = l.
Proof.
    induction l as [|x l IH]; intros Hall; [done|].
    rewrite filter_cons_True by (apply Hall; left).
    f_equal. apply IH. intros y Hy. apply Hall. by right.
Qed.
End Filter.

(** In each of the three distributions of [conserved], every card is
    counted once by the piles, the stack cards no pile holds and the laid
    cards in flight. *)
Lemma conserved_count (s : Game) :
  conserved s ->
  length (playerCardList s) + length (npcCardList s) +
  length (stackNotAwarded s) + length (cardsInFlight s) = deckSize s.
Proof.
  intros [_ Hdeck Hcards]. unfold deckSize, stackNotAwarded, cardsInFlight.
  rewrite Hdeck. pose proof standardDeck_NoDup as Hnd.
  destruct Hcards as [(Hperm & Hstack & Hlaid)|[(Hstack & pc & nc & Hpl & Hnl & Hperm)|
                                                 (Hperm & Hlaid)]].
  - rewrite (filter_none _ (stack s)), (filter_none _ (laidCards s)).
    + rewrite <- Hperm, length_app. simpl. clear. lia.
    + intros c Hc Hout. apply Hout. rewrite (assoc_L (++)), Hperm.
      apply elem_of_app. left. by apply Hlaid.
    + intros c Hc Hout. apply Hout. rewrite Hperm. by apply Hstack.
  - rewrite <- Hperm in Hnd. apply NoDup_cons in Hnd as [Hpc [Hnc _]%NoDup_cons].
    unfold laidCards. rewrite Hstack, Hpl, Hnl.
    change (option_list (Some pc) ++ option_list (Some nc)) with [pc; nc].
    rewrite (filter_all _ [pc; nc]).
    + rewrite <- Hperm. simpl. rewrite length_app. clear. lia.
    + intros c Hc. rewrite (right_id_L [] (++)).
      apply elem_of_cons in Hc as [->|Hc]; [|apply list_elem_of_singleton in Hc as ->; done].
      intros Hin. apply Hpc. by right.
  - rewrite <- Hperm in Hnd. rewrite (assoc_L (++)) in Hnd.
    apply NoDup_app in Hnd as (_ & Hdisj & _).
    rewrite (filter_all _ (stack s)), (filter_none _ (laidCards s)).
    + rewrite <- Hperm, !length_app. simpl. clear. lia.
    + intros c Hc Hout. apply Hout. rewrite (assoc_L (++)).
      apply elem_of_app. right. by apply Hlaid.
    + intros c Hc Hin. by apply (Hdisj c).
Qed.

Lemma Game_init_running (g : Rng) : running (gameAfter g 0).
Proof.
  destruct (Game_init_run g) as (g' & s & E & _).
  apply (running_init g g'). unfold gameAfter. cbn [Nat.iter]. by rewrite E.
Qed.

(** C3 (amended). In every state the main loop can observe, the cards of
    the two piles, the cards of the stack that no pile holds, and the laid
    cards in flight add up to the deck size.  (The whole stack cannot be
    counted: a decided war's stack is already in the winner's pile while it
    waits to be shown.) *)
Theorem cards_are_conserved (s : Game) :
  reachable s ->
  length (playerCardList s) + length (npcCardList s) +
  length (stackNotAwarded s) + length (cardsInFlight s) = deckSize s.
Proof. intros Hs. by apply conserved_count, reachable_conserved. Qed.

Lemma cards_are_conserved_witness :
  reachable (gameAfter rngWar 2) /\
  length (playerCardList (gameAfter rngWar 2)) + length (npcCardList (gameAfter rngWar 2)) +
  length (stackNotAwarded (gameAfter rngWar 2)) + length (cardsInFlight (gameAfter rngWar 2))
  = deckSize (gameAfter rngWar 2).
Proof.
  assert (reachable (gameAfter rngWar 2)) as H.
  { left.
    apply (running_step (gameAfter rngWar 1) (Some false)); [|vm_compute; reflexivity|discriminate].
    apply (running_step (gameAfter rngWar 0) (Some false)); [|vm_compute; reflexivity|discriminate].
    apply (running_init rngWar []). vm_compute. reflexivity. }
  split; [exact H|]. exact (cards_are_conserved _ H).
Defined.

(** The count of C3 as the specification writes it, with the whole stack,
    fails in the state a decided war leaves: 15 + 9 cards in the piles and 6
    on the stack, of a deck of 24. *)
Lemma conservation_with_whole_stack_counterexample :
  running (gameAfter rngWar 2) /\
  length (playerCardList (gameAfter rngWar 2)) + length (npcCardList (gameAfter rngWar 2)) +
  length (stack (gameAfter rngWar 2)) + length (cardsInFlight (gameAfter rngWar 2))
  <> deckSize (gameAfter rngWar 2).
Proof.
  split.
  - apply (running_step (gameAfter rngWar 1) (Some false)); [|vm_compute; reflexivity|discriminate].
    apply (running_step (gameAfter rngWar 0) (Some false)); [|vm_compute; reflexivity|discriminate].
    apply (running_init rngWar []). vm_compute. reflexivity.
  - vm_compute. discriminate.
Qed.

(* ===================================================================== *)
(** * Too few cards for a war *)
(* ===================================================================== *)

Lemma verdict_player_wins (p : list Card) (r : nat) :
  verdict_spec p [] r = PlayerWinsGame.
Proof. unfold verdict_spec. by rewrite decide_True. Qed.

Lemma verdict_npc_wins (n : list Card) (r : nat) :
  n <> [] -> verdict_spec [] n r = NpcWinsGame.
Proof. intros Hn. unfold verdict_spec. by rewrite decide_False, decide_True. Qed.

(** The phase of a running game is the one its flags select. *)
Lemma running_normal (s : Game) :
  running s -> warMode s = false -> stackCardsToShow s = false ->
  cardsSet s = true /\ startingDeckList (oDeck s) = standardDeck /\ normalPhase s.
Proof.
  intros [Hset Hdeck Hphase]%running_runningInv Hwar Hpend.
  destruct Hphase as [(? & _)|[([] & _)|[[]|[]]]]; [done|congruence..].
Qed.


(** C10. When a NORMAL-phase round of a running game ties and leaves
    [side] with fewer than two cards, that same advance returns [True]:
    [side]'s pile is empty, the other pile is its remaining cards, then the
    (empty) stack, then [side]'s remaining cards, and the two tied cards are
    in no pile and not on the stack, so that the other side holds the deck
    size minus two cards. *)
Theorem tie_with_too_few_cards_ends_game (s : Game) (p n : list Card) (pc nc : Card)
    (side : Side) :
  running s -> warMode s = false -> stackCardsToShow s = false ->
  playerCardList s = p ++ [pc] -> npcCardList s = n ++ [nc] ->
  getValue pc = getValue nc ->
  length (ofSide side p n) < 2 ->
  exists s', manageGame s = Returned (Some true) s' /\
    pile side s' = [] /\
    stack s = [] /\
    pile (other side) s' = ofSide (other side) p n ++ stack s ++ ofSide side p n /\
    stack s' = [] /\
    (pc ∉ pile (other side) s') /\ (nc ∉ pile (other side) s') /\
    length (pile (other side) s') = deckSize s' - 2.
Proof.
  intros Hrun Hwar Hpend Hp Hn Hv Hfew.
  destruct (running_normal s Hrun Hwar Hpend) as (Hset & Hdeck & [_ _ _ Hstack Hperm _]).
  rewrite manageGame_gamePlay, (gamePlay_tie_run s p n pc nc), warChecking_run by done.
  rewrite Hp, Hn in Hperm.
  assert (pc :: nc :: p ++ n ≡ₚ standardDeck) as Hperm' by perm_from Hperm.
  pose proof standardDeck_NoDup as Hnd. rewrite <- Hperm' in Hnd.
  apply NoDup_cons in Hnd as [Hpc [Hnc _]%NoDup_cons].
  assert (length p + length n = 22) as Hlen.
  { apply Permutation_length in Hperm'. rewrite standardDeck_length in Hperm'.
    simpl in Hperm'. rewrite length_app in Hperm'. clear -Hperm'. lia. }
  unfold deckSize. destruct s. simpl in *. subst. attrs.
  destruct side; simpl in Hfew.
  - destruct (Nat.ltb_spec (length p) 2) as [_|?]; [|clear -Hfew H; lia].
    check_game_over m g w. attrs.
    rewrite (verdict_empty_pile [] _ _ (or_introl eq_refl)).
    eexists. split; [reflexivity|]. cbn. rewrite Hdeck, standardDeck_length.
    repeat split; try done;
      first [clear -Hpc; elem_of_lists
            |clear -Hnc; elem_of_lists
            |rewrite !length_app; simpl; clear -Hlen; lia].
  - destruct (Nat.ltb_spec (length p) 2) as [?|_]; [clear -Hfew Hlen H; lia|].
    destruct (Nat.ltb_spec (length n) 2) as [_|?]; [|clear -Hfew H; lia].
    check_game_over m g w. attrs.
    rewrite (verdict_empty_pile _ [] _ (or_intror eq_refl)).
    eexists. split; [reflexivity|]. cbn. rewrite Hdeck, standardDeck_length.
    repeat split; try done;
      first [clear -Hpc; elem_of_lists
            |clear -Hnc; elem_of_lists
            |rewrite !length_app; simpl; clear -Hlen; lia].
Qed.


(* ===================================================================== *)
(** * After the game is over *)
(* ===================================================================== *)

Lemma gameOverState_cardsSet (s : Game) : gameOverState s -> cardsSet s = true.
Proof. intros [[] _]%gameOverState_over. done. Qed.

(** C4 (amended). In a state in which the game is over, evaluating the
    game-over check again returns [True] again and changes nothing but
    texts: no pile, no score.  [manageGame] itself has no guard for such a
    state (the main loop disables the button): in the NORMAL phase with an
    empty pile it raises [IndexError] on the [pop], after counting the
    round. *)
Theorem game_over_check_repeats (s : Game) :
  gameOverState s ->
  (exists s', checkGameOverSelf s = Returned true s' /\ sameButTexts s s') /\
  (warMode s = false -> stackCardsToShow s = false ->
   playerCardList s = [] \/ npcCardList s = [] ->
   exists s', manageGame s = Raised (IndexError "pop from empty list") s' /\
     roundNumber s' = roundNumber s + 1).
Proof.
  intros Hover. pose proof (gameOverState_cardsSet s Hover) as Hset.
  apply gameOverState_over in Hover as [_ Hover]. split.
  - unfold checkGameOverSelf.
    destruct (checkGameOver_run (playerCardList s) (npcCardList s) (roundNumber s) s)
      as (_ & s' & E & Hs & _).
    unfold over in Hover. rewrite Hover in E. eauto.
  - intros Hwar Hpend Hempty. rewrite manageGame_gamePlay by done.
    destruct s. simpl in *. subst. unfold gamePlay. run.
    destruct playerCardList0 as [|c p] using rev_ind.
    + run. cbn. eauto.
    + destruct Hempty as [[_ [=]]%app_nil| ->]. run. cbn. eauto.
Qed.

(* ===================================================================== *)
(** * The size of the deck *)
(* ===================================================================== *)

Lemma buildCards_length (rankValueDict : list (string * Z)) :
  length (buildCards rankValueDict) = 4 * length rankValueDict.
Proof.
  unfold buildCards. cbn [SUIT_TUPLE flat_map].
  rewrite !length_app, !length_map. simpl. lia.
Qed.

(** X12. A deck built from a rank/value map holds four cards per rank,
    whatever the map, and [dealCards] always returns on it: the playing list
    is used up and each pile holds two cards per rank.  (So no map gives an
    odd number of cards, and neither [Deck.__init__] nor [dealCards] tests
    the size.) *)
Theorem deck_is_even_and_dealt_in_halves (rankValueDict : list (string * Z))
    (g g1 : Rng) :
  let d := (Deck_init rankValueDict g).1 in
  length (startingDeckList d) = 4 * length rankValueDict /\
  exists g2 s, dealCards g1 (newGameAttributes d) = Returned g2 s /\
    playingDeckList (oDeck s) = [] /\
    length (playerCardList s) = 2 * length rankValueDict /\
    length (npcCardList s) = 2 * length rankValueDict.
Proof.
  intros d.
  assert (length (startingDeckList d) = 4 * length rankValueDict) as Hsize.
  { subst d. unfold Deck_init. by rewrite shuffle_master, <- buildCards_length. }
  split; [done|].
  destruct (dealCards_run d g1) as (p & n & d' & -> & _ & Hlive & Hperm & Hlen).
  apply Permutation_length in Hperm. rewrite length_app, Hsize in Hperm.
  eexists _, _. split; [reflexivity|]. cbn. split; [done|]. clear -Hperm Hlen. lia.
Qed.

(* ===================================================================== *)
(** * The concrete games *)
(* ===================================================================== *)

(** A game is running after [k] clicks that all returned [False]. *)
Lemma running_after (g : Rng) (k : nat) :
  clicksReturnFalse g k = true -> running (gameAfter g k).
Proof.
  unfold clicksReturnFalse. induction k as [|k IH]; intros Hall.
  - apply Game_init_running.
  - rewrite seq_S, forallb_app in Hall. apply andb_prop in Hall as [Hall Hk].
    cbn [forallb] in Hk. rewrite Nat.add_0_l in Hk.
    change (gameAfter g (S k)) with (advance (gameAfter g k)). unfold advance.
    destruct (manageGame (gameAfter g k)) as [[[|]|] s'|] eqn:E; try done.
    apply (running_step (gameAfter g k) (Some false)); [by apply IH|done|done].
Qed.

Ltac running_by_computation := apply running_after; vm_compute; reflexivity.

Ltac holds_by_computation := apply (bool_decide_unpack _); vm_compute; exact I.

Lemma gamePlay_higher_card_takes_both_witness :
  exists b s', manageGame (gameAfter rngForfeit 0) = Returned (Some b) s'.
Proof.
  destruct (gamePlay_higher_card_takes_both (gameAfter rngForfeit 0)
              (removelast (playerCardList (gameAfter rngForfeit 0)))
              (removelast (npcCardList (gameAfter rngForfeit 0)))
              (mkCard "9" "Hearts" 9) (mkCard "Queen" "Hearts" 12))
    as (b & s' & E & _).
  - vm_compute; reflexivity.
  - vm_compute; reflexivity.
  - vm_compute; reflexivity.
  - vm_compute; reflexivity.
  - vm_compute; reflexivity.
  - vm_compute. discriminate.
  - exists b, s'. exact E.
Defined.

Lemma war_decisive_stack_goes_behind_witness :
  exists s', manageGame (gameAfter rngWar 1) = Returned (Some false) s'.
Proof.
  destruct (war_decisive_stack_goes_behind (gameAfter rngWar 1)
              (removelast (removelast (playerCardList (gameAfter rngWar 1))))
              (removelast (removelast (npcCardList (gameAfter rngWar 1))))
              (mkCard "9" "Clubs" 9) (mkCard "Jack" "Hearts" 11)
              (mkCard "9" "Diamonds" 9) (mkCard "10" "Hearts" 10))
    as (s' & E & _).
  - vm_compute; reflexivity.
  - vm_compute; reflexivity.
  - intros _. vm_compute. split; eexists; reflexivity.
  - vm_compute; reflexivity.
  - vm_compute; reflexivity.
  - vm_compute. discriminate.
  - exists s'. exact E.
Defined.

(** C1 as stated fails after the first war of this game: the nine cards
    the player kept are all drawn before the six cards of the stack. *)
Lemma stack_drawn_first_counterexample :
  running (gameAfter rngWar 1) /\
  manageGame (gameAfter rngWar 1) = Returned (Some false) (gameAfter rngWar 2) /\
  stackCardsToShow (gameAfter rngWar 2) = true /\
  playerCardList (gameAfter rngWar 2) =
    stack (gameAfter rngWar 2) ++
    removelast (removelast (playerCardList (gameAfter rngWar 1))) /\
  ~ stackDrawnFirst (gameAfter rngWar 2) Player
      (removelast (removelast (playerCardList (gameAfter rngWar 1)))).
Proof.
  split; [running_by_computation|].
  split; [vm_compute; reflexivity|]. split; [vm_compute; reflexivity|].
  split; [vm_compute; reflexivity|].
  intros H.
  assert (mkCard "9" "Hearts" 9 ∈ stack (gameAfter rngWar 2)) as Ha
    by holds_by_computation.
  assert (mkCard "Queen" "Clubs" 12 ∈
            removelast (removelast (playerCardList (gameAfter rngWar 1)))) as Hb
    by holds_by_computation.
  pose proof (H _ _ Ha Hb) as Hd. vm_compute in Hd. lia.
Qed.

Lemma gamePlay_tie_holds_laid_cards_witness :
  exists b s', manageGame (gameAfter rngWar 0) = Returned (Some b) s' /\
    warMode s' = true /\ stack s' = stack (gameAfter rngWar 0).
Proof.
  destruct (gamePlay_tie_holds_laid_cards (gameAfter rngWar 0)
              (removelast (playerCardList (gameAfter rngWar 0)))
              (removelast (npcCardList (gameAfter rngWar 0)))
              (mkCard "9" "Spades" 9) (mkCard "9" "Hearts" 9))
    as (b & s' & E & Hwar & Hstack & _).
  - vm_compute; reflexivity.
  - vm_compute; reflexivity.
  - vm_compute; reflexivity.
  - vm_compute; reflexivity.
  - vm_compute; reflexivity.
  - vm_compute; reflexivity.
  - exists b, s'. exact (conj E (conj Hwar Hstack)).
Defined.

(** C2 as stated fails on the first round of this game, a tie of two
    nines: afterwards the stack is empty and each pile is one card shorter. *)
Lemma tie_as_stated_counterexample :
  running (gameAfter rngWar 0) /\
  warMode (gameAfter rngWar 0) = false /\
  last (playerCardList (gameAfter rngWar 0)) = Some (mkCard "9" "Spades" 9) /\
  last (npcCardList (gameAfter rngWar 0)) = Some (mkCard "9" "Hearts" 9) /\
  manageGame (gameAfter rngWar 0) = Returned (Some false) (gameAfter rngWar 1) /\
  stack (gameAfter rngWar 1) = [] /\
  length (playerCardList (gameAfter rngWar 0)) = 12 /\
  length (playerCardList (gameAfter rngWar 1)) = 11 /\
  ~ tieAsStated (gameAfter rngWar 0) (gameAfter rngWar 1)
      (mkCard "9" "Spades" 9) (mkCard "9" "Hearts" 9).
Proof.
  split; [running_by_computation|].
  repeat (split; [vm_compute; reflexivity|]).
  intros (_ & _ & H & _). vm_compute in H. discriminate.
Qed.



Lemma tie_with_too_few_cards_ends_game_witness :
  exists s', manageGame (gameAfter rngForfeit 10) = Returned (Some true) s' /\
    pile Player s' = [] /\ length (pile Npc s') = deckSize s' - 2.
Proof.
  destruct (tie_with_too_few_cards_ends_game (gameAfter rngForfeit 10)
              (removelast (playerCardList (gameAfter rngForfeit 10)))
              (removelast (npcCardList (gameAfter rngForfeit 10)))
              (mkCard "Jack" "Diamonds" 11) (mkCard "Jack" "Clubs" 11) Player)
    as (s' & E & Hempty & _ & _ & _ & _ & _ & Hlen).
  - running_by_computation.
  - vm_compute; reflexivity.
  - vm_compute; reflexivity.
  - vm_compute; reflexivity.
  - vm_compute; reflexivity.
  - vm_compute; reflexivity.
  - vm_compute. lia.
  - exists s'. exact (conj E (conj Hempty Hlen)).
Defined.

Lemma gameOverState_forfeit : gameOverState (gameAfter rngForfeit 11).
Proof.
  exists (gameAfter rngForfeit 10).
  split; [running_by_computation|vm_compute; reflexivity].
Qed.

Lemma game_over_check_repeats_witness :
  exists s', checkGameOverSelf (gameAfter rngForfeit 11) = Returned true s' /\
    sameButTexts (gameAfter rngForfeit 11) s'.
Proof.
  apply (game_over_check_repeats (gameAfter rngForfeit 11)).
  exists (gameAfter rngForfeit 10).
  split; [running_by_computation|vm_compute; reflexivity].
Defined.

(** C4 as stated fails in both games that end in a war: after the forfeit
    of the tied round the next advance raises, and after the forfeit in the
    chained war it returns [True] but gives the stack to the winner a second
    time. *)
Lemma advance_after_game_over_counterexample :
  gameOverState (gameAfter rngForfeit 11) /\
  (exists e s', manageGame (gameAfter rngForfeit 11) = Raised e s') /\
  ~ advanceIsNoOp (gameAfter rngForfeit 11) /\
  gameOverState (gameAfter rngChain 7) /\
  length (npcCardList (gameAfter rngChain 7)) = 24 /\
  length (npcCardList (advance (gameAfter rngChain 7))) = 46 /\
  ~ advanceIsNoOp (gameAfter rngChain 7).
Proof.
  assert (exists e s', manageGame (gameAfter rngForfeit 11) = Raised e s') as Hraise.
  { eexists _, _. vm_compute. reflexivity. }
  split; [apply gameOverState_forfeit|]. split; [exact Hraise|].
  split.
  { intros (s' & E & _). destruct Hraise as (e & s0 & E0). congruence. }
  split.
  { exists (gameAfter rngChain 6).
    split; [running_by_computation|vm_compute; reflexivity]. }
  do 2 (split; [vm_compute; reflexivity|]).
  intros (s' & E & _ & Hn & _).
  assert (manageGame (gameAfter rngChain 7) =
            Returned (Some true) (advance (gameAfter rngChain 7))) as E'
    by (vm_compute; reflexivity).
  rewrite E' in E.
  assert (s' = advance (gameAfter rngChain 7)) as -> by congruence.
  revert Hn. vm_compute. discriminate.
Qed.

(* ===================================================================== *)
(** * Further properties of the deck *)
(* ===================================================================== *)

(** Successive [getCard] calls on a playing list that ends with [taken]. *)
Lemma getCards_run (d : Deck) (rest taken : list Card) :
  playingDeckList d = rest ++ taken ->
  getCards (length taken) d =
    inr (reverse taken, mkDeck (startingDeckList d) rest (images d)).
Proof.
  revert d. induction taken as [|c taken IH] using rev_ind; intros d Hlive.
  - rewrite (right_id_L [] (++)) in Hlive. destruct d. simpl in *. by subst.
  - rewrite length_app, Nat.add_1_r, reverse_snoc. cbn [getCards].
    unfold getCard. rewrite Hlive, (assoc_L (++)), pop_snoc, length_app, Nat.add_1_r.
    cbn [Nat.eqb].
    by rewrite (IH (mkDeck (startingDeckList d) (rest ++ taken) (images d)) eq_refl).
Qed.

(** X1. [k] calls of [getCard] on a deck that holds at least [k] playing
    cards return the last [k] cards of the playing list, last card first,
    and leave the others in place; the starting list and the faces are not
    touched. *)
Theorem getCards_takes_from_the_end (d : Deck) (rest taken : list Card) :
  playingDeckList d = rest ++ taken ->
  getCards (length taken) d =
    inr (reverse taken, mkDeck (startingDeckList d) rest (images d)).
Proof. apply getCards_run. Qed.

Lemma getCards_takes_from_the_end_witness :
  getCards 2 (mkDeck standardDeck standardDeck newImages) =
    inr (reverse (drop 22 standardDeck),
         mkDeck standardDeck (take 22 standardDeck) newImages).
Proof.
  apply (getCards_takes_from_the_end (mkDeck standardDeck standardDeck newImages)
           (take 22 standardDeck) (drop 22 standardDeck)).
  vm_compute. reflexivity.
Defined.

(** One more call after [k] calls that returned. *)
Lemma getCards_one_more (k : nat) :
  forall (d d' : Deck) (cards : list Card),
    getCards k d = inr (cards, d') ->
    getCards (S k) d =
      match getCard d' with
      | inl e => inl e
      | inr (oCard, d'') => inr (cards ++ [oCard], d'')
      end.
Proof.
  induction k as [|k IH]; intros d d' cards E.
  - injection E as <- <-. cbn [getCards]. by destruct (getCard d) as [e|[c d1]].
  - cbn [getCards] in E. destruct (getCard d) as [e|[c d1]] eqn:Ec; [done|].
    destruct (getCards k d1) as [e|[cs d2]] eqn:Ek; [done|]. injection E as <- <-.
    change (getCards (S (S k)) d) with
      (match getCard d with
       | inl e => inl e
       | inr (oCard, d0) =>
           match getCards (S k) d0 with
           | inl e => inl e
           | inr (cards, d'') => inr (oCard :: cards, d'')
           end
       end).
    rewrite Ec, (IH d1 d2 cs Ek). by destruct (getCard d2) as [e|[c2 d3]].
Qed.

(** X2. A shuffled deck serves exactly as many [getCard] calls as it has
    cards: that many calls return a permutation of the starting list and
    leave the playing list empty, and the next call raises [IndexError]. *)
Theorem shuffled_deck_is_drawn_out (d : Deck) (g : Rng) :
  let d' := (shuffle d g).1 in
  exists cards d'',
    getCards (length (startingDeckList d)) d' = inr (cards, d'') /\
    cards ≡ₚ startingDeckList d /\
    playingDeckList d'' = [] /\
    getCards (S (length (startingDeckList d))) d' =
      inl (IndexError "Brak kolejnych kart.").
Proof.
  intros d'. pose proof (shuffle_live d g) as Hlive. fold d' in Hlive.
  assert (length (startingDeckList d) = length (playingDeckList d')) as Hlen
    by by rewrite Hlive.
  pose proof (getCards_run d' [] (playingDeckList d') eq_refl) as E.
  rewrite <- Hlen in E.
  eexists _, _. split; [exact E|]. split; [by rewrite reverse_Permutation|].
  split; [done|]. by rewrite (getCards_one_more _ _ _ _ E).
Qed.

Lemma buildCards_elem_of (rankValueDict : list (string * Z)) (c : Card) :
  c ∈ buildCards rankValueDict <->
  suit c ∈ SUIT_TUPLE /\ (rank c, value c) ∈ rankValueDict.
Proof.
  unfold buildCards, SUIT_TUPLE. cbn [flat_map].
  rewrite !elem_of_app, !elem_of_cons, !elem_of_nil.
  change map with (@fmap list _). rewrite !list_elem_of_fmap.
  split.
  - intros [([r v] & -> & H)|[([r v] & -> & H)|[([r v] & -> & H)|[([r v] & -> & H)|[]]]]];
      simpl; tauto.
  - destruct c as [r su v]. simpl.
    intros [[->|[->|[->|[->|[]]]]] H];
      [left|right; left|right; right; left|right; right; right; left];
      by exists (r, v).
Qed.

Lemma cards_of_suits_suit (suits : list string) (rankValueDict : list (string * Z))
    (c : Card) :
  c ∈ flat_map (fun su => map (fun rv : string * Z => mkCard rv.1 su rv.2) rankValueDict)
        suits ->
  suit c ∈ suits.
Proof.
  induction suits as [|su suits IH]; cbn [flat_map]; [by intros ?%elem_of_nil|].
  rewrite elem_of_app, elem_of_cons. change map with (@fmap list _).
  rewrite list_elem_of_fmap. intros [(rv & -> & _)|H]; [by left|right; by apply IH].
Qed.

Lemma cards_of_suits_NoDup (suits : list string) (rankValueDict : list (string * Z)) :
  NoDup suits -> NoDup rankValueDict ->
  NoDup (flat_map (fun su => map (fun rv : string * Z => mkCard rv.1 su rv.2) rankValueDict)
           suits).
Proof.
  intros Hsuits Hdict. induction Hsuits as [|su suits Hnew _ IH]; cbn [flat_map].
  { apply NoDup_nil_2. }
  apply NoDup_app. split; [|split; [|exact IH]].
  - apply NoDup_fmap_2_strong; [|done]. by intros [r1 v1] [r2 v2] _ _ [= -> ->].
  - intros c Hc Hrest. apply cards_of_suits_suit in Hrest.
    change map with (@fmap list _) in Hc. apply list_elem_of_fmap in Hc as (rv & -> & _).
    by apply Hnew.
Qed.

(** X3. The deck [Deck.__init__] builds from a rank/value map (a [dict]:
    no rank twice) holds exactly one card for every suit and every rank of
    the map, with the value the map gives the rank: no card twice, and a
    card is in it just when its suit is one of the four and its rank and
    value are an entry of the map. *)
Theorem buildCards_one_card_per_suit_and_rank (rankValueDict : list (string * Z)) :
  NoDup (rankValueDict.*1) ->
  NoDup (buildCards rankValueDict) /\
  forall c, c ∈ buildCards rankValueDict <->
            suit c ∈ SUIT_TUPLE /\ (rank c, value c) ∈ rankValueDict.
Proof.
  intros Hkeys. split; [|apply buildCards_elem_of].
  apply cards_of_suits_NoDup; [|by apply NoDup_fmap_1 in Hkeys].
  apply (bool_decide_unpack _). vm_compute. exact I.
Qed.

Lemma buildCards_one_card_per_suit_and_rank_witness :
  NoDup (buildCards STANDARD_DICT).
Proof.
  apply (buildCards_one_card_per_suit_and_rank STANDARD_DICT).
  apply (bool_decide_unpack _). vm_compute. exact I.
Defined.

(* ===================================================================== *)
(** * Further properties of the engine *)
(* ===================================================================== *)

(** X4. [Game.__init__] always returns: whatever the shuffle, each side is
    dealt twelve cards, the two piles together are the 24 cards of the
    deck, the playing list of the deck is used up, and the game waits in the
    NORMAL phase of round 0 with the cards set and an empty stack. *)
Theorem Game_init_deals_twelve_each (g : Rng) :
  exists g' s, Game_init g = Returned g' s /\
    length (playerCardList s) = 12 /\ length (npcCardList s) = 12 /\
    playerCardList s ++ npcCardList s ≡ₚ standardDeck /\
    playingDeckList (oDeck s) = [] /\
    cardsSet s = true /\ roundNumber s = 0 /\
    warMode s = false /\ stackCardsToShow s = false /\ stack s = [].
Proof.
  unfold Game_init, Deck_init.
  destruct (shuffle _ g) as [d g1] eqn:Hsh.
  pose proof (shuffle_master (mkDeck (buildCards STANDARD_DICT) [] newImages) g) as Hmaster.
  rewrite Hsh in Hmaster. simpl in Hmaster. fold standardDeck in Hmaster.
  unfold Game_with_deck. unfold bind at 1 2.
  destruct (dealCards_run d g1) as (p & n & d' & -> & Hd' & Hlive & Hperm & Hlen).
  rewrite Hmaster in Hperm.
  assert (length p = 12 /\ length n = 12) as [Hp12 Hn12].
  { apply Permutation_length in Hperm.
    rewrite length_app, standardDeck_length in Hperm. lia. }
  destruct p as [|p0 p _] using rev_ind; [done|].
  destruct n as [|n0 n _] using rev_ind; [done|].
  unfold newGameAttributes. attrs. unfold manageGame. run.
  unfold firstView. run. rewrite last_snoc. run. rewrite last_snoc. run.
  eexists _, _. split; [reflexivity|]. attrs. done.
Qed.

(** X5. No advance of a running game raises or falls through: in every
    state the main loop reaches while the game is not over, [manageGame]
    returns [True] or [False]. *)
Theorem running_game_never_raises (s : Game) :
  running s -> exists b s', manageGame s = Returned (Some b) s'.
Proof.
  intros Hrun. destruct (running_advance s (running_runningInv s Hrun)) as (b & s' & E & _).
  by exists b, s'.
Qed.

Lemma running_game_never_raises_witness :
  exists b s', manageGame (gameAfter rngChain 3) = Returned (Some b) s'.
Proof.
  apply (running_game_never_raises (gameAfter rngChain 3)).
  apply running_after. vm_compute. reflexivity.
Defined.

Lemma verdict_continues_round (p n : list Card) (r : nat) :
  gameIsOver (verdict_spec p n r) = false -> r <> 100.
Proof. unfold verdict_spec. repeat case_decide; simpl; done. Qed.

Lemma reported_some (o : Outcome bool) (b : bool) (s' : Game) :
  reported o = Returned (Some b) s' -> o = Returned b s'.
Proof. destruct o as [b0 s|e s]; simpl; [|done]. by intros [= -> ->]. Qed.

Lemma checkGameOverSelf_returned (s s' : Game) (b : bool) :
  checkGameOverSelf s = Returned b s' ->
  (exists m g w, s' = withTexts m g w s) /\
  b = gameIsOver (verdict_spec (playerCardList s) (npcCardList s) (roundNumber s)).
Proof.
  destruct (checkGameOverSelf_texts s) as (m & g & w & ->). intros [= <- <-]. eauto.
Qed.

(** What an advance of a running game does to the scores and the round
    number. *)
Lemma scores_and_round_step (s s' : Game) (b : bool) :
  runningInv s -> scoresShown s -> roundNumber s < 100 ->
  manageGame s = Returned (Some b) s' ->
  roundNumber s' <= 100 /\ (b = false -> scoresShown s' /\ roundNumber s' < 100).
Proof.
  intros [Hset Hdeck Hphase] Hsc Hr E.
  destruct Hphase as [([Hwar Hchain Hpend _ _ _] & Hp & Hn)|
                      [([Hwar Hchain Hpend _ (pc & nc & Hpl & Hnl & _)] & Hp & Hn)|
                       [[Hwar Hchain Hpend _ _ _]|[Hwar Hchain Hpend _ _ _]]]].
  - destruct (list_snoc_cases (playerCardList s)) as [?|(p & pc & Ep)]; [done|].
    destruct (list_snoc_cases (npcCardList s)) as [?|(n & nc & En)]; [done|].
    rewrite manageGame_gamePlay in E by done. apply reported_some in E.
    destruct (decide (getValue pc = getValue nc)) as [Hv|Hv].
    + rewrite (gamePlay_tie_run s p n pc nc), warChecking_run in E by done.
      revert E. destruct s. unfold scoresShown in *. simpl in *. subst. attrs.
      destruct (length p <? 2); [|destruct (length n <? 2)];
        intros [(m & g & w & ->) Hb]%checkGameOverSelf_returned; revert Hb; attrs;
        intros ->; (split; [lia|]).
      * by intros [? _]%verdict_continues.
      * by intros [_ ?]%verdict_continues.
      * intros ?%verdict_continues_round. lia.
    + rewrite (gamePlay_decisive_run s p n pc nc) in E by done.
      apply checkGameOverSelf_returned in E as [(m & g & w & ->) ->].
      destruct s. unfold scoresShown in *. simpl in *. subst.
      unfold afterRound. destruct (getValue pc >? getValue nc)%Z; attrs;
        (split; [lia|]); intros ?%verdict_continues_round; lia.
  - destruct (list_snoc2_cases (playerCardList s)) as [?|(p & pn & ps & Ep)]; [lia|].
    destruct (list_snoc2_cases (npcCardList s)) as [?|(n & nn & ns & En)]; [lia|].
    rewrite manageGame_war, (war_first_run s pc nc) in E by done.
    rewrite (warRound_run _ p n ps pn ns nn) in E by (by destruct s).
    apply reported_some in E. injection E as <- <-.
    destruct s. unfold scoresShown in *. simpl in *. subst. unfold afterWarRound.
    destruct (getValue pn >? getValue nn)%Z; [|destruct (getValue pn <? getValue nn)%Z];
      attrs; lia.
  - rewrite manageGame_war, war_chain_run, warChecking_run in E by done.
    apply reported_some in E.
    destruct (list_snoc2_cases (playerCardList s)) as [Hfew|(p & pn & ps & Ep)].
    { apply Nat.ltb_lt in Hfew. rewrite Hfew in E.
      apply checkGameOverSelf_returned in E as [(m & g & w & ->) ->].
      destruct s. simpl in *. split; [lia|]. first [done|by intros [? _]%verdict_continues]. }
    rewrite Ep, length_snoc2_ltb in E.
    destruct (list_snoc2_cases (npcCardList s)) as [Hfew|(n & nn & ns & En)].
    { apply Nat.ltb_lt in Hfew. rewrite Hfew in E.
      apply checkGameOverSelf_returned in E as [(m & g & w & ->) ->].
      destruct s. simpl in *. split; [lia|]. first [done|by intros [_ ?]%verdict_continues]. }
    rewrite En, length_snoc2_ltb, (warRound_run s p n ps pn ns nn) in E by done.
    injection E as <- <-.
    destruct s. unfold scoresShown in *. simpl in *. subst. unfold afterWarRound.
    destruct (getValue pn >? getValue nn)%Z; [|destruct (getValue pn <? getValue nn)%Z];
      attrs; lia.
  - rewrite manageGame_showStackCards, showStackCards_run in E by done.
    apply reported_some in E.
    apply checkGameOverSelf_returned in E as [(m & g & w & ->) ->].
    destruct s. unfold scoresShown in *. simpl in *. split; [lia|done].
Qed.

Lemma Game_init_scores (g : Rng) :
  exists g' s, Game_init g = Returned g' s /\ scoresShown s /\ roundNumber s = 0 /\
    warMode s = false /\ stackCardsToShow s = false.
Proof.
  unfold Game_init, Deck_init.
  pose proof (shuffle_live (mkDeck (buildCards STANDARD_DICT) [] newImages) g) as Hlive.
  pose proof (shuffle_master (mkDeck (buildCards STANDARD_DICT) [] newImages) g) as Hmaster.
  destruct (shuffle _ g) as [d g1]. simpl in Hlive, Hmaster. fold standardDeck in *.
  unfold Game_with_deck. unfold bind at 1 2.
  destruct (dealCards_run d g1) as (p & n & d' & -> & Hd' & _ & Hperm & Hlen).
  rewrite Hmaster in Hperm.
  assert (length (playingDeckList d) = 24) as Hd24.
  { by rewrite Hlive, standardDeck_length. }
  assert (length p = 12 /\ length n = 12) as [Hp12 Hn12].
  { apply Permutation_length in Hperm.
    rewrite length_app, standardDeck_length in Hperm. lia. }
  destruct p as [|p0 p _] using rev_ind; [done|].
  destruct n as [|n0 n _] using rev_ind; [done|].
  unfold newGameAttributes. attrs. unfold manageGame. run.
  unfold firstView. run. rewrite last_snoc. run. rewrite last_snoc. run.
  eexists _, _. split; [reflexivity|]. unfold scoresShown. attrs.
  rewrite Hd24, Hp12, Hn12. done.
Qed.

Lemma running_scores_and_round (s : Game) :
  running s -> scoresShown s /\ roundNumber s < 100.
Proof.
  induction 1 as [g g' s E|s r s' Hrun [Hsc Hr] E Hnot].
  - destruct (Game_init_scores g) as (g1 & s1 & E1 & Hsc & Hr & _).
    rewrite E1 in E. injection E as <- <-. split; [done|lia].
  - pose proof (running_runningInv s Hrun) as Hinv.
    destruct (running_advance s Hinv) as (b & s1 & E1 & _).
    rewrite E1 in E. injection E as <- <-.
    destruct b; [done|].
    by apply (scores_and_round_step s s1 false Hinv Hsc Hr E1).
Qed.

(** X6. While the game is running the two scores are the sizes of the two
    piles. *)
Theorem running_scores_are_pile_sizes (s : Game) :
  running s ->
  playerScore s = length (playerCardList s) /\ npcScore s = length (npcCardList s).
Proof. intros Hrun. by apply running_scores_and_round. Qed.

Lemma running_scores_are_pile_sizes_witness :
  playerScore (gameAfter rngWar 2) = length (playerCardList (gameAfter rngWar 2)) /\
  npcScore (gameAfter rngWar 2) = length (npcCardList (gameAfter rngWar 2)).
Proof.
  apply (running_scores_are_pile_sizes (gameAfter rngWar 2)).
  apply running_after. vm_compute. reflexivity.
Defined.

(** X7. The round counter never passes [MAX_ROUND_NUMBER]: it is below 100
    in every state of a running game and at most 100 once the game is over. *)
Theorem round_number_is_bounded (s : Game) :
  reachable s ->
  roundNumber s <= MAX_ROUND_NUMBER /\ (running s -> roundNumber s < MAX_ROUND_NUMBER).
Proof.
  unfold MAX_ROUND_NUMBER. intros Hs. split.
  - destruct Hs as [Hrun|(s0 & Hrun & E)].
    + apply running_scores_and_round in Hrun as [_ ?]. lia.
    + destruct (running_scores_and_round s0 Hrun) as [Hsc Hr].
      by apply (scores_and_round_step s0 s true (running_runningInv s0 Hrun) Hsc Hr E).
  - intros Hrun. by apply running_scores_and_round.
Qed.

Lemma round_number_is_bounded_witness :
  roundNumber (gameAfter rngForfeit 11) <= MAX_ROUND_NUMBER.
Proof.
  apply (round_number_is_bounded (gameAfter rngForfeit 11)).
  right. exists (gameAfter rngForfeit 10).
  split; [apply running_after; vm_compute; reflexivity|vm_compute; reflexivity].
Defined.

Lemma checkGameOverSelf_true (x s : Game) :
  checkGameOverSelf x = Returned true s ->
  playerCardList s = playerCardList x /\ npcCardList s = npcCardList x /\
  roundNumber s = roundNumber x /\ gameOverText s = "Koniec gry!" /\
  announced (verdict_spec (playerCardList x) (npcCardList x) (roundNumber x)) =
    Some (winnerText s).
Proof.
  unfold checkGameOverSelf.
  destruct (checkGameOver_run (playerCardList x) (npcCardList x) (roundNumber x) x)
    as (_ & s' & -> & Hs & Hv).
  intros [= Hb <-].
  destruct (verdict_spec _ _ _); try done; simpl in *;
    destruct Hv as [<- ?]; rewrite Hs; by destruct x.
Qed.

(** The advance that ends a running game: some card is left in a pile, and
    the verdict announced is the one of the piles it leaves. *)
Lemma game_over_step (s0 s : Game) :
  runningInv s0 -> manageGame s0 = Returned (Some true) s ->
  length (playerCardList s) + length (npcCardList s) <> 0 /\
  gameOverText s = "Koniec gry!" /\
  announced (verdict_spec (playerCardList s) (npcCardList s) (roundNumber s)) =
    Some (winnerText s).
Proof.
  intros [Hset Hdeck Hphase] E.
  assert (forall x, checkGameOverSelf x = Returned true s ->
            length (playerCardList x) + length (npcCardList x) <> 0 ->
            length (playerCardList s) + length (npcCardList s) <> 0 /\
            gameOverText s = "Koniec gry!" /\
            announced (verdict_spec (playerCardList s) (npcCardList s) (roundNumber s)) =
              Some (winnerText s)) as Hend.
  { intros x (-> & -> & -> & ? & ?)%checkGameOverSelf_true ?. done. }
  destruct Hphase as [([Hwar Hchain Hpend _ Hperm _] & Hp & Hn)|
                      [([Hwar Hchain Hpend _ (pc & nc & Hpl & Hnl & _)] & Hp & Hn)|
                       [[Hwar Hchain Hpend _ Hstack _]|[Hwar Hchain Hpend Hperm _ _]]]].
  - destruct (list_snoc_cases (playerCardList s0)) as [?|(p & pc & Ep)]; [done|].
    destruct (list_snoc_cases (npcCardList s0)) as [?|(n & nc & En)]; [done|].
    rewrite manageGame_gamePlay in E by done. apply reported_some in E.
    apply Permutation_length in Hperm.
    rewrite Ep, En, !length_app, standardDeck_length in Hperm. simpl in Hperm.
    destruct (decide (getValue pc = getValue nc)) as [Hv|Hv].
    + rewrite (gamePlay_tie_run s0 p n pc nc), warChecking_run in E by done.
      revert E. destruct s0. simpl in *. subst. attrs.
      destruct (length p <? 2); [|destruct (length n <? 2)];
        intros E; apply Hend in E; try done; attrs; rewrite ?length_app; simpl; lia.
    + rewrite (gamePlay_decisive_run s0 p n pc nc) in E by done.
      apply Hend in E; [done|].
      destruct s0. simpl in *. subst.
      unfold afterRound. destruct (getValue pc >? getValue nc)%Z; attrs; simpl; lia.
  - destruct (list_snoc2_cases (playerCardList s0)) as [?|(p & pn & ps & Ep)]; [lia|].
    destruct (list_snoc2_cases (npcCardList s0)) as [?|(n & nn & ns & En)]; [lia|].
    rewrite manageGame_war, (war_first_run s0 pc nc) in E by done.
    rewrite (warRound_run _ p n ps pn ns nn) in E by (by destruct s0).
    apply reported_some in E. discriminate E.
  - rewrite manageGame_war, war_chain_run, warChecking_run in E by done.
    apply reported_some in E.
    destruct (list_snoc2_cases (playerCardList s0)) as [Hfew|(p & pn & ps & Ep)].
    { apply Nat.ltb_lt in Hfew. rewrite Hfew in E. apply Hend in E; [done|].
      assert (length (stack s0) <> 0) by (by destruct (stack s0)).
      destruct s0. simpl in *. rewrite !length_app. lia. }
    rewrite Ep, length_snoc2_ltb in E.
    destruct (list_snoc2_cases (npcCardList s0)) as [Hfew|(n & nn & ns & En)].
    { apply Nat.ltb_lt in Hfew. rewrite Hfew in E. apply Hend in E; [done|].
      assert (length (stack s0) <> 0) by (by destruct (stack s0)).
      destruct s0. simpl in *. rewrite !length_app. lia. }
    rewrite En, length_snoc2_ltb, (warRound_run s0 p n ps pn ns nn) in E by done.
    discriminate E.
  - rewrite manageGame_showStackCards, showStackCards_run in E by done.
    apply reported_some in E. apply Hend in E; [done|].
    apply Permutation_length in Hperm.
    rewrite length_app, standardDeck_length in Hperm.
    destruct s0. simpl in *. lia.
Qed.

(** X8. When the game is over, "Koniec gry!" is shown and the winner
    announced is the side that holds the larger pile; "Remis!" is announced
    for piles of equal size, which only the round limit can bring about. *)
Theorem game_over_announces_larger_pile (s : Game) :
  gameOverState s ->
  gameOverText s = "Koniec gry!" /\ winnerText s = largerPileWins s /\
  (winnerText s = "Remis!" -> roundNumber s = MAX_ROUND_NUMBER).
Proof.
  intros (s0 & Hrun & E).
  destruct (game_over_step s0 s (running_runningInv s0 Hrun) E) as (Hne & Htext & Hv).
  split; [done|]. revert Hv. unfold largerPileWins, verdict_spec, MAX_ROUND_NUMBER.
  destruct (playerCardList s) as [|pc p], (npcCardList s) as [|nc n]; [done|..].
  - rewrite decide_False, decide_True by done. by intros [= <-].
  - rewrite decide_True by done. by intros [= <-].
  - rewrite !decide_False by done.
    case_decide; [|done].
    destruct (Nat.compare_spec (length (pc :: p)) (length (nc :: n))).
    + rewrite !decide_False by lia. by intros [= <-].
    + rewrite decide_False, decide_True by lia. by intros [= <-].
    + rewrite decide_True by lia. by intros [= <-].
Qed.

Lemma game_over_announces_larger_pile_witness :
  gameOverText (gameAfter rngForfeit 11) = "Koniec gry!" /\
  winnerText (gameAfter rngForfeit 11) = largerPileWins (gameAfter rngForfeit 11) /\
  (winnerText (gameAfter rngForfeit 11) = "Remis!" ->
   roundNumber (gameAfter rngForfeit 11) = MAX_ROUND_NUMBER).
Proof.
  apply (game_over_announces_larger_pile (gameAfter rngForfeit 11)).
  exists (gameAfter rngForfeit 10).
  split; [apply running_after; vm_compute; reflexivity|vm_compute; reflexivity].
Defined.

(** Every advance of a running game that returns [False] brings the game
    closer to its end. *)
Lemma clicksLeft_step (s s' : Game) :
  runningInv s -> roundNumber s < 100 ->
  manageGame s = Returned (Some false) s' ->
  clicksLeft s' < clicksLeft s.
Proof.
  intros [Hset Hdeck Hphase] Hr E. unfold clicksLeft, MAX_ROUND_NUMBER.
  destruct Hphase as [([Hwar Hchain Hpend _ Hperm _] & Hp & Hn)|
                      [([Hwar Hchain Hpend _ (pc & nc & Hpl & Hnl & _)] & Hp & Hn)|
                       [[Hwar Hchain Hpend _ _ _]|[Hwar Hchain Hpend _ _ _]]]].
  - destruct (list_snoc_cases (playerCardList s)) as [?|(p & pc & Ep)]; [done|].
    destruct (list_snoc_cases (npcCardList s)) as [?|(n & nc & En)]; [done|].
    rewrite manageGame_gamePlay in E by done. apply reported_some in E.
    apply Permutation_length in Hperm.
    rewrite Ep, En, !length_app, standardDeck_length in Hperm. simpl in Hperm.
    destruct (decide (getValue pc = getValue nc)) as [Hv|Hv].
    + rewrite (gamePlay_tie_run s p n pc nc), warChecking_run in E by done.
      revert E. destruct s. simpl in *. subst. attrs.
      destruct (length p <? 2); [|destruct (length n <? 2)];
        intros [(m & g & w & ->) Hb]%checkGameOverSelf_returned; revert Hb; attrs.
      * by intros [? _]%eq_sym%verdict_continues.
      * by intros [_ ?]%eq_sym%verdict_continues.
      * intros _. lia.
    + rewrite (gamePlay_decisive_run s p n pc nc) in E by done.
      apply checkGameOverSelf_returned in E as [(m & g & w & ->) _].
      destruct s. simpl in *. subst.
      unfold afterRound. destruct (getValue pc >? getValue nc)%Z; attrs; lia.
  - destruct (list_snoc2_cases (playerCardList s)) as [?|(p & pn & ps & Ep)]; [lia|].
    destruct (list_snoc2_cases (npcCardList s)) as [?|(n & nn & ns & En)]; [lia|].
    rewrite manageGame_war, (war_first_run s pc nc) in E by done.
    rewrite (warRound_run _ p n ps pn ns nn) in E by (by destruct s).
    apply reported_some in E. injection E as <-.
    destruct s. simpl in *. subst. unfold afterWarRound.
    destruct (getValue pn >? getValue nn)%Z; [|destruct (getValue pn <? getValue nn)%Z];
      attrs; rewrite ?length_app; simpl; lia.
  - rewrite manageGame_war, war_chain_run, warChecking_run in E by done.
    apply reported_some in E.
    destruct (list_snoc2_cases (playerCardList s)) as [Hfew|(p & pn & ps & Ep)].
    { apply Nat.ltb_lt in Hfew. rewrite Hfew in E.
      apply checkGameOverSelf_returned in E as [_ Hb].
      destruct s. simpl in *. first [done|by apply eq_sym, verdict_continues in Hb as [? _]]. }
    rewrite Ep, length_snoc2_ltb in E.
    destruct (list_snoc2_cases (npcCardList s)) as [Hfew|(n & nn & ns & En)].
    { apply Nat.ltb_lt in Hfew. rewrite Hfew in E.
      apply checkGameOverSelf_returned in E as [_ Hb].
      destruct s. simpl in *. first [done|by apply eq_sym, verdict_continues in Hb as [_ ?]]. }
    rewrite En, length_snoc2_ltb, (warRound_run s p n ps pn ns nn) in E by done.
    injection E as <-.
    destruct s. simpl in *. subst. unfold afterWarRound.
    destruct (getValue pn >? getValue nn)%Z; [|destruct (getValue pn <? getValue nn)%Z];
      attrs; rewrite ?length_app; simpl; lia.
  - rewrite manageGame_showStackCards, showStackCards_run in E by done.
    apply reported_some in E.
    apply checkGameOverSelf_returned in E as [(m & g & w & ->) _].
    destruct s. simpl in *. subst. lia.
Qed.

Lemma running_game_ends (m : nat) (s : Game) :
  running s -> clicksLeft s <= m ->
  exists k, k < m /\
    (forall j, j <= k -> running (Nat.iter j advance s)) /\
    exists s', manageGame (Nat.iter k advance s) = Returned (Some true) s'.
Proof.
  revert s. induction m as [|m IH]; intros s Hrun Hm.
  { destruct (running_scores_and_round s Hrun) as [_ Hr].
    unfold clicksLeft, MAX_ROUND_NUMBER in Hm. lia. }
  pose proof (running_runningInv s Hrun) as Hinv.
  destruct (running_scores_and_round s Hrun) as [_ Hr].
  destruct (running_advance s Hinv) as (b & s' & E & _).
  destruct b.
  - exists 0. split; [lia|]. split; [|by exists s'].
    intros j Hj. by replace j with 0 by lia.
  - assert (advance s = s') as Hadv by (unfold advance; by rewrite E).
    assert (running s') as Hrun' by (by apply (running_step s (Some false) s')).
    pose proof (clicksLeft_step s s' Hinv Hr E) as Hless.
    destruct (IH s' Hrun') as (k & Hk & Hbefore & Hover); [lia|].
    exists (S k). split; [lia|]. rewrite Nat.iter_succ_r, Hadv. split; [|done].
    intros [|j] Hj; [done|]. rewrite Nat.iter_succ_r, Hadv. apply Hbefore. lia.
Qed.

(** X9. Every game ends: whatever the shuffles, one of the first 2500
    clicks returns [True], the game running up to that click. *)
Theorem every_game_ends (g : Rng) :
  exists k, k < 25 * MAX_ROUND_NUMBER /\
    (forall j, j <= k -> running (gameAfter g j)) /\
    exists s', manageGame (gameAfter g k) = Returned (Some true) s'.
Proof.
  unfold gameAfter.
  destruct (Game_init_scores g) as (g' & s & E & _ & Hr & Hwar & Hpend).
  rewrite E. cbn [finalState].
  apply running_game_ends; [by apply (running_init g g')|].
  unfold clicksLeft. rewrite Hr, Hwar, Hpend. unfold MAX_ROUND_NUMBER. lia.
Qed.

(** X10. A war advance on piles of at least two cards whose new laid cards
    tie again returns [False] with the war going on as a chained war: each
    pile has lost its two top cards, the stack has grown by them (after the
    two tied cards of the round, when the war has just begun), the war is
    counted but no round is, the scores are the sizes of the shortened
    piles, and the laid-card attributes keep the cards of the tied round. *)
Theorem war_tie_again_chains (s : Game) (p n : list Card) (ps pn ns nn : Card) :
  cardsSet s = true -> warMode s = true ->
  (anotherWar s = false -> is_Some (playerLaidCard s) /\ is_Some (npcLaidCard s)) ->
  playerCardList s = p ++ [pn; ps] -> npcCardList s = n ++ [nn; ns] ->
  getValue pn = getValue nn ->
  exists s', manageGame s = Returned (Some false) s' /\
    warMode s' = true /\ anotherWar s' = true /\
    stackCardsToShow s' = stackCardsToShow s /\
    playerCardList s' = p /\ npcCardList s' = n /\
    stack s' = stack s ++ (if anotherWar s then [] else laidCards s) ++ [ps; ns; pn; nn] /\
    playerScore s' = length p /\ npcScore s' = length n /\
    warNumber s' = warNumber s + 1 /\ roundNumber s' = roundNumber s /\
    playerLaidCard s' = playerLaidCard s /\ npcLaidCard s' = npcLaidCard s.
Proof.
  intros Hset Hwar Hlaid Hp Hn [Hgt Hlt]%Z_compare_eq.
  destruct (war_run s p n ps pn ns nn Hlaid Hp Hn) as (pre & -> & E).
  rewrite manageGame_war, E by done. eexists. split; [reflexivity|].
  unfold afterWarRound. rewrite Hgt, Hlt.
  destruct s; simpl in *; subst; attrs. rewrite <- (assoc_L (++)). done.
Qed.

Lemma war_tie_again_chains_witness :
  exists s', manageGame (gameAfter rngChain 1) = Returned (Some false) s' /\
    anotherWar s' = true /\
    length (playerCardList s') + 2 = length (playerCardList (gameAfter rngChain 1)) /\
    length (stack s') = 6.
Proof.
  destruct (war_tie_again_chains (gameAfter rngChain 1)
              (removelast (removelast (playerCardList (gameAfter rngChain 1))))
              (removelast (removelast (npcCardList (gameAfter rngChain 1))))
              (mkCard "9" "Clubs" 9) (mkCard "10" "Spades" 10)
              (mkCard "9" "Diamonds" 9) (mkCard "10" "Hearts" 10))
    as (s' & E & _ & Hchain & _ & Hp & _ & Hstack & _).
  - vm_compute; reflexivity.
  - vm_compute; reflexivity.
  - intros _. split; vm_compute; eauto.
  - vm_compute; reflexivity.
  - vm_compute; reflexivity.
  - vm_compute; reflexivity.
  - exists s'. split; [exact E|]. split; [exact Hchain|].
    rewrite Hp, Hstack. split; vm_compute; reflexivity.
Defined.

(** X11. A decided war round never ends the game by itself.  When it
    takes the last two cards of [loser], that advance still returns [False],
    with [loser]'s pile empty and the reveal pending; it is the advance that
    shows the stack which returns [True] and announces the other side as the
    winner, the winner's pile being the stack followed by its remaining
    cards. *)
Theorem war_taking_last_cards_ends_at_reveal (s : Game) (loser : Side)
    (p n : list Card) (ps pn ns nn : Card) :
  cardsSet s = true -> warMode s = true ->
  (anotherWar s = false -> is_Some (playerLaidCard s) /\ is_Some (npcLaidCard s)) ->
  playerCardList s = p ++ [pn; ps] -> npcCardList s = n ++ [nn; ns] ->
  ofSide loser p n = [] ->
  (getValue (ofSide loser pn nn) < getValue (ofSide loser nn pn))%Z ->
  exists s1 s2,
    manageGame s = Returned (Some false) s1 /\
    pile loser s1 = [] /\ stackCardsToShow s1 = true /\
    manageGame s1 = Returned (Some true) s2 /\
    winnerText s2 = winsGame (other loser) /\ gameOverText s2 = "Koniec gry!" /\
    pile loser s2 = [] /\
    pile (other loser) s2 = stack s1 ++ ofSide loser n p /\
    stack s2 = [].
Proof.
  intros Hset Hwar Hlaid Hp Hn Hempty Hless.
  destruct (war_run s p n ps pn ns nn Hlaid Hp Hn) as (pre & _ & E).
  rewrite manageGame_war, E by done. clear E Hlaid.
  assert (forall x, cardsSet x = true -> warMode x = false -> stackCardsToShow x = true ->
            pile loser x = [] -> pile (other loser) x <> [] ->
            exists s2, manageGame x = Returned (Some true) s2 /\
              winnerText s2 = winsGame (other loser) /\ gameOverText s2 = "Koniec gry!" /\
              pile loser s2 = [] /\ pile (other loser) s2 = pile (other loser) x /\
              stack s2 = []) as Hreveal.
  { intros x Hx1 Hx2 Hx3 Hx4 Hx5.
    rewrite manageGame_showStackCards, showStackCards_run by done.
    destruct (checkGameOverSelf_texts (set_stack [] (set_stackCardsToShow false x)))
      as (m & g & w & Ex).
    assert (verdict_spec (playerCardList x) (npcCardList x) (roundNumber x) =
              match loser with Player => NpcWinsGame | Npc => PlayerWinsGame end) as Hv.
    { destruct loser; simpl in Hx4, Hx5; rewrite Hx4.
      - by apply verdict_npc_wins.
      - by apply verdict_player_wins. }
    assert (playerCardList (set_stack [] (set_stackCardsToShow false x)) = playerCardList x)
      as Hpx by (by destruct x).
    assert (npcCardList (set_stack [] (set_stackCardsToShow false x)) = npcCardList x)
      as Hnx by (by destruct x).
    assert (roundNumber (set_stack [] (set_stackCardsToShow false x)) = roundNumber x)
      as Hrx by (by destruct x).
    rewrite Hpx, Hnx, Hrx, Hv in Ex.
    assert (checkGameOverSelf (set_stack [] (set_stackCardsToShow false x)) =
              Returned true (withTexts m g w (set_stack [] (set_stackCardsToShow false x))))
      as Ex' by (rewrite Ex; by destruct loser).
    rewrite Ex'. eexists. split; [reflexivity|].
    assert (stack (withTexts m g w (set_stack [] (set_stackCardsToShow false x))) = [])
      as Hs2 by (by destruct x).
    revert Ex' Hs2. generalize (withTexts m g w (set_stack [] (set_stackCardsToShow false x))).
    intros s2 (Hp2 & Hn2 & _ & Htext & Hw)%checkGameOverSelf_true Hs2.
    rewrite Hpx, Hnx, Hrx, Hv in Hw. rewrite Hpx in Hp2. rewrite Hnx in Hn2.
    split; [destruct loser; by injection Hw|]. split; [done|].
    split; [destruct loser; simpl in *; congruence|].
    split; [destruct loser; simpl in *; congruence|done]. }
  eexists. 
  match goal with
  | |- exists s2, reported (Returned false ?x) = _ /\ _ =>
      destruct (Hreveal x) as (s2 & E2 & Hw & Hg & Hl & Ho & Hs)
  end.
  - unfold afterWarRound.
    destruct (getValue pn >? getValue nn)%Z; [|destruct (getValue pn <? getValue nn)%Z];
      by destruct s.
  - unfold afterWarRound. destruct loser; simpl in Hless.
    + apply Z.ltb_lt in Hless as Hlt. rewrite Z.gtb_ltb, (proj2 (Z.ltb_ge _ _)), Hlt by lia.
      by destruct s.
    + apply Z.ltb_lt in Hless as Hlt. rewrite Z.gtb_ltb, Hlt. by destruct s.
  - unfold afterWarRound. destruct loser; simpl in Hless.
    + apply Z.ltb_lt in Hless as Hlt. rewrite Z.gtb_ltb, (proj2 (Z.ltb_ge _ _)), Hlt by lia.
      by destruct s.
    + apply Z.ltb_lt in Hless as Hlt. rewrite Z.gtb_ltb, Hlt. by destruct s.
  - unfold afterWarRound. destruct loser; simpl in Hless, Hempty; subst.
    + apply Z.ltb_lt in Hless as Hlt. rewrite Z.gtb_ltb, (proj2 (Z.ltb_ge _ _)), Hlt by lia.
      by destruct s.
    + apply Z.ltb_lt in Hless as Hlt. rewrite Z.gtb_ltb, Hlt. by destruct s.
  - unfold afterWarRound. destruct loser; simpl in Hless.
    + apply Z.ltb_lt in Hless as Hlt. rewrite Z.gtb_ltb, (proj2 (Z.ltb_ge _ _)), Hlt by lia.
      destruct s; attrs; simpl. intros Hnil. apply (f_equal length) in Hnil.
      rewrite !length_app in Hnil. simpl in Hnil. lia.
    + apply Z.ltb_lt in Hless as Hlt. rewrite Z.gtb_ltb, Hlt.
      destruct s; attrs; simpl. intros Hnil. apply (f_equal length) in Hnil.
      rewrite !length_app in Hnil. simpl in Hnil. lia.
  - exists s2. split; [reflexivity|]. revert E2 Hw Hg Hl Ho Hs.
    unfold afterWarRound. destruct loser; simpl in Hless, Hempty; subst.
    + apply Z.ltb_lt in Hless as Hlt. rewrite Z.gtb_ltb, (proj2 (Z.ltb_ge _ _)), Hlt by lia.
      destruct s; attrs; simpl. intros. done.
    + apply Z.ltb_lt in Hless as Hlt. rewrite Z.gtb_ltb, Hlt.
      destruct s; attrs; simpl. intros. done.
Qed.

Lemma war_taking_last_cards_ends_at_reveal_witness :
  exists s1 s2,
    manageGame lastTwoCardsWar = Returned (Some false) s1 /\
    pile Npc s1 = [] /\ stackCardsToShow s1 = true /\
    manageGame s1 = Returned (Some true) s2 /\
    winnerText s2 = winsGame Player /\ gameOverText s2 = "Koniec gry!" /\
    pile Npc s2 = [] /\
    pile Player s2 =
      stack s1 ++ removelast (removelast (playerCardList lastTwoCardsWar)) /\
    stack s2 = [].
Proof.
  apply (war_taking_last_cards_ends_at_reveal lastTwoCardsWar Npc
           (removelast (removelast (playerCardList lastTwoCardsWar))) []
           (mkCard "9" "Clubs" 9) (mkCard "Jack" "Hearts" 11)
           (mkCard "9" "Diamonds" 9) (mkCard "10" "Hearts" 10)).
  - vm_compute; reflexivity.
  - vm_compute; reflexivity.
  - intros _. split; vm_compute; eauto.
  - vm_compute; reflexivity.
  - vm_compute; reflexivity.
  - reflexivity.
  - vm_compute; reflexivity.
Defined.
